(** * The pi automata of [pi.py]: expressions, commands and declarations

    A shallow embedding of the three layered automata of [pi.py]
    ([ExpπAut], [CmdπAut], [DecπAut]) and of the term classes they
    evaluate, followed by the properties proved about them.

    Conventions.
    - Python floats are Rocq's primitive binary64 floats, so [+], [-], [*]
      and [==] on them are the IEEE operations Python performs.
    - A Python list used as a stack ([ValueStack], [ControlStack]) is a Rocq
      list whose HEAD is the top of the stack ([append] is cons, [pop]
      removes the head).
    - Python dicts keep insertion order; [Env] and [Sto] are association
      lists in insertion order with at most one entry per key.
    - The location ledger [self["locs"]] is a mutable list that the
      automaton both copies and shares (the [#BLKDEC] rule pushes the list
      object itself on the value stack), so list objects live in a heap and
      are handled by reference.
    - A step is a function from states to either a state or the exception
      raised; the driver loops are bounded by a fuel argument.
    - A NaN equals no dict key, not even itself, so Python finds a NaN key
      by object identity, which the embedding does not track: where a
      location is a NaN the run of the model stops ([OutOfModel]) although
      the run of [pi.py] goes on, and the properties say nothing. *)

From Stdlib Require Import ZArith String List Floats Lia Bool.
From stdpp Require Import base tactics option list.
Import ListNotations.
Local Open Scope string_scope.
Local Open Scope list_scope.

(** ** π Lib terms *)

(** The class hierarchy below [Statement].  Each class with an [__init__]
    is a constructor whose argument types are the ones its [assert]
    accepts; [BoolExp] is the subclass of [Exp] that [Loop] demands.
    [Assign(Id(x), e)] and [Bind(Id(x), e)] carry the name [x] of their
    [Id] operand. *)
Inductive Exp : Type :=
  | Num (f : float)
  | Sum (e1 e2 : Exp)
  | Sub (e1 e2 : Exp)
  | Mul (e1 e2 : Exp)
  | BExp (b : BoolExp)
  | Id (s : string)
  | Ref (e : Exp)
  | Cns (e : Exp)
with BoolExp : Type :=
  | Eq (e1 e2 : Exp)
  | Not (e : Exp).

Coercion BExp : BoolExp >-> Exp.

Inductive Dec : Type :=
  | Bind (i : string) (e : Exp)
  | DSeq (d1 d2 : Dec).

Inductive Cmd : Type :=
  | Assign (i : string) (e : Exp)
  | Loop (be : BoolExp) (c : Cmd)
  | CSeq (c1 c2 : Cmd)
  | Blk (d : Dec) (c : Cmd).

Inductive Statement : Type :=
  | SExp (e : Exp)
  | SCmd (c : Cmd)
  | SDec (d : Dec).

Coercion SExp : Exp >-> Statement.
Coercion SCmd : Cmd >-> Statement.
Coercion SDec : Dec >-> Statement.

(** ** Python values *)

(** Python numbers: [float], [bool] and [int] ([bool + bool] is an [int]). *)
Inductive num : Type :=
  | NFloat (f : float)
  | NBool (b : bool)
  | NInt (z : Z).

(** [class Env(dict)]: identifier name to location. *)
Definition Env : Type := list (string * num).
(** [class Sto(dict)]: location to stored value. *)
Definition Sto : Type := list (num * num).

(** Everything the automaton puts on its two stacks.  [VDict] is a dict
    made by [#BIND]/[#DSEQ] (referenced from one stack slot only); [VEnv]
    is an environment object saved by [#BLKDEC] (shared with
    [self["env"]]); [VList r] is a reference to the list object at address
    [r] of the heap. *)
Inductive value : Type :=
  | VNum (n : num)
  | VStr (s : string)
  | VTerm (t : Statement)
  | VDict (d : Env)
  | VEnv (en : Env)
  | VList (r : nat).

Definition ValueStack : Type := list value.
Definition ControlStack : Type := list value.

(** The exceptions a step can raise.  [IllFormed e] is
    [Exception("Ill formed:", e)]; [AssertionError] is what a failed
    constructor [assert] raises (the spec's MalformedTerm).  [OutOfModel]
    is no Python exception: it ends a run of the model where Python goes
    on in a way the embedding does not track.  That is a store or ledger
    operation at a location that is a NaN, which Python finds by object
    identity (a term can reach it: [Bind(Id(x), Num(nan))] makes a NaN the
    location of [x]), and an operator applied to operands no term
    evaluation produces (strings, dicts, lists, terms).  The properties
    below are about the runs that do not meet it. *)
Inductive error : Type :=
  | IllFormed (e : value)
  | AssertionError
  | IndexError
  | KeyError
  | TypeError
  | AttributeError
  | OverflowError
  | OutOfModel.

Inductive result (A : Type) : Type :=
  | Ok (a : A)
  | Err (e : error).
Arguments Ok {A} a.
Arguments Err {A} e.

Definition rbind {A B} (r : result A) (k : A -> result B) : result B :=
  match r with
  | Ok a => k a
  | Err e => Err e
  end.

Definition rmap {A B} (f : A -> B) (r : result A) : result B :=
  rbind r (fun a => Ok (f a)).

(** ** Constructors with their assertions *)

Definition isinstance_float (v : value) : bool :=
  match v with VNum (NFloat _) => true | _ => false end.
Definition isinstance_str (v : value) : bool :=
  match v with VStr _ => true | _ => false end.
Definition isinstance_Exp (v : value) : bool :=
  match v with VTerm (SExp _) => true | _ => false end.
Definition isinstance_BoolExp (v : value) : bool :=
  match v with VTerm (SExp (BExp _)) => true | _ => false end.
Definition isinstance_Id (v : value) : bool :=
  match v with VTerm (SExp (Id _)) => true | _ => false end.
Definition isinstance_Cmd (v : value) : bool :=
  match v with VTerm (SCmd _) => true | _ => false end.
Definition isinstance_Dec (v : value) : bool :=
  match v with VTerm (SDec _) => true | _ => false end.

Definition Num_init (f : value) : result Statement :=
  match f with
  | VNum (NFloat x) => Ok (SExp (Num x))
  | _ => Err AssertionError
  end.

Definition binary_init (mk : Exp -> Exp -> Exp) (e1 e2 : value) : result Statement :=
  match e1, e2 with
  | VTerm (SExp a), VTerm (SExp b) => Ok (SExp (mk a b))
  | _, _ => Err AssertionError
  end.

Definition unary_init (mk : Exp -> Exp) (e : value) : result Statement :=
  match e with
  | VTerm (SExp a) => Ok (SExp (mk a))
  | _ => Err AssertionError
  end.

Definition Sum_init := binary_init Sum.
Definition Sub_init := binary_init Sub.
Definition Mul_init := binary_init Mul.
Definition Eq_init := binary_init (fun a b => BExp (Eq a b)).
Definition Not_init := unary_init (fun a => BExp (Not a)).
Definition Ref_init := unary_init Ref.
Definition Cns_init := unary_init Cns.

Definition Id_init (s : value) : result Statement :=
  match s with
  | VStr x => Ok (SExp (Id x))
  | _ => Err AssertionError
  end.

Definition Assign_init (i e : value) : result Statement :=
  match i, e with
  | VTerm (SExp (Id x)), VTerm (SExp a) => Ok (SCmd (Assign x a))
  | _, _ => Err AssertionError
  end.

Definition Loop_init (be c : value) : result Statement :=
  match be, c with
  | VTerm (SExp (BExp b)), VTerm (SCmd k) => Ok (SCmd (Loop b k))
  | _, _ => Err AssertionError
  end.

Definition CSeq_init (c1 c2 : value) : result Statement :=
  match c1, c2 with
  | VTerm (SCmd a), VTerm (SCmd b) => Ok (SCmd (CSeq a b))
  | _, _ => Err AssertionError
  end.

Definition Bind_init (i e : value) : result Statement :=
  match i, e with
  | VTerm (SExp (Id x)), VTerm (SExp a) => Ok (SDec (Bind x a))
  | _, _ => Err AssertionError
  end.

Definition Blk_init (d c : value) : result Statement :=
  match d, c with
  | VTerm (SDec a), VTerm (SCmd b) => Ok (SCmd (Blk a b))
  | _, _ => Err AssertionError
  end.

Definition DSeq_init (d1 d2 : value) : result Statement :=
  match d1, d2 with
  | VTerm (SDec a), VTerm (SDec b) => Ok (SDec (DSeq a b))
  | _, _ => Err AssertionError
  end.

(** ** Python arithmetic on numbers *)

(** The integer a [bool] or [int] denotes; [None] for a float. *)
Definition num_int (n : num) : option Z :=
  match n with
  | NFloat _ => None
  | NBool b => Some (if b then 1 else 0)%Z
  | NInt z => Some z
  end.

(** [float(z)]: round to nearest even, [OverflowError] beyond the range. *)
Definition float_of_Z (z : Z) : result float :=
  match binary_normalize prec emax z 0 false with
  | S754_infinity _ => Err OverflowError
  | sf => Ok (SF2Prim sf)
  end.

Definition num_float (n : num) : result float :=
  match n with
  | NFloat f => Ok f
  | NBool b => float_of_Z (if b then 1 else 0)
  | NInt z => float_of_Z z
  end.

(** A binary arithmetic operator: exact on two integers, otherwise the
    IEEE operation after converting the integer operand. *)
Definition num_arith (fz : Z -> Z -> Z) (ff : float -> float -> float)
    (a b : num) : result num :=
  match num_int a, num_int b with
  | Some x, Some y => Ok (NInt (fz x y))
  | _, _ =>
      rbind (num_float a) (fun x =>
      rbind (num_float b) (fun y => Ok (NFloat (ff x y))))
  end.

Definition num_add := num_arith Z.add PrimFloat.add.
Definition num_sub := num_arith Z.sub PrimFloat.sub.
Definition num_mul := num_arith Z.mul PrimFloat.mul.

(** Exact comparison of an integer with a float, as Python compares an
    [int] with a [float]; [None] when the float is a NaN. *)
Definition Z_float_compare (z : Z) (f : float) : option comparison :=
  match Prim2SF f with
  | S754_zero _ => Some (z ?= 0)%Z
  | S754_infinity s => Some (if s then Gt else Lt)
  | S754_nan => None
  | S754_finite s m e =>
      let sm := if s then Z.neg m else Z.pos m in
      if (0 <=? e)%Z then Some (z ?= sm * 2 ^ e)%Z
      else Some (z * 2 ^ (- e) ?= sm)%Z
  end.

Definition is_Eq (c : option comparison) : bool :=
  match c with Some Datatypes.Eq => true | _ => false end.
Definition is_Lt (c : option comparison) : bool :=
  match c with Some Lt => true | _ => false end.
Definition is_Gt (c : option comparison) : bool :=
  match c with Some Gt => true | _ => false end.

(** [a == b] on numbers. *)
Definition num_eq (a b : num) : bool :=
  match a, b with
  | NFloat x, NFloat y => PrimFloat.eqb x y
  | NFloat x, _ =>
      match num_int b with Some z => is_Eq (Z_float_compare z x) | None => false end
  | _, NFloat y =>
      match num_int a with Some z => is_Eq (Z_float_compare z y) | None => false end
  | _, _ =>
      match num_int a, num_int b with
      | Some x, Some y => (x =? y)%Z
      | _, _ => false
      end
  end.

(** [a > b] on numbers. *)
Definition num_gt (a b : num) : bool :=
  match a, b with
  | NFloat x, NFloat y => PrimFloat.ltb y x
  | NFloat x, _ =>
      match num_int b with Some z => is_Lt (Z_float_compare z x) | None => false end
  | _, NFloat y =>
      match num_int a with Some z => is_Gt (Z_float_compare z y) | None => false end
  | _, _ =>
      match num_int a, num_int b with
      | Some x, Some y => (y <? x)%Z
      | _, _ => false
      end
  end.

Definition num_truth (n : num) : bool :=
  match n with
  | NFloat f => negb (PrimFloat.eqb f 0%float)
  | NBool b => b
  | NInt z => negb (z =? 0)%Z
  end.

Definition num_is_nan (n : num) : bool :=
  match n with
  | NFloat f => negb (PrimFloat.eqb f f)
  | _ => false
  end.

(** ** Operators on stack values *)

Definition is_integral (v : value) : bool :=
  match v with VNum (NBool _) | VNum (NInt _) => true | _ => false end.
Definition is_sequence (v : value) : bool :=
  match v with VStr _ | VList _ => true | _ => false end.

(** [v1 + v2]. *)
Definition py_add (v1 v2 : value) : result value :=
  match v1, v2 with
  | VNum a, VNum b => rmap VNum (num_add a b)
  | VStr _, VStr _ => Err OutOfModel
  | VList _, VList _ => Err OutOfModel
  | _, _ => Err TypeError
  end.

(** [v1 - v2]. *)
Definition py_sub (v1 v2 : value) : result value :=
  match v1, v2 with
  | VNum a, VNum b => rmap VNum (num_sub a b)
  | _, _ => Err TypeError
  end.

(** [v1 * v2]. *)
Definition py_mul (v1 v2 : value) : result value :=
  match v1, v2 with
  | VNum a, VNum b => rmap VNum (num_mul a b)
  | _, _ =>
      if (is_sequence v1 && is_integral v2) || (is_integral v1 && is_sequence v2)
      then Err OutOfModel else Err TypeError
  end.

(** [v1 == v2]: never raises; objects of different kinds are unequal. *)
Definition py_eq (v1 v2 : value) : result bool :=
  match v1, v2 with
  | VNum a, VNum b => Ok (num_eq a b)
  | VStr a, VStr b => Ok (String.eqb a b)
  | VTerm _, VTerm _ => Err OutOfModel
  | (VDict _ | VEnv _), (VDict _ | VEnv _) => Err OutOfModel
  | VList _, VList _ => Err OutOfModel
  | _, _ => Ok false
  end.

(** Truth value of an object, as [if t:] and [not v] take it. *)
Definition py_truth (h : list (list num)) (v : value) : result bool :=
  match v with
  | VNum n => Ok (num_truth n)
  | VStr s => Ok (negb (String.eqb s ""))
  | VTerm _ => Ok true
  | VDict d | VEnv d => Ok (negb (Nat.eqb (length d) 0))
  | VList r =>
      match h !! r with
      | Some l => Ok (negb (Nat.eqb (length l) 0))
      | None => Err OutOfModel
      end
  end.

(** ** Dictionaries *)

Fixpoint env_get (en : Env) (x : string) : option num :=
  match en with
  | [] => None
  | (k, l) :: en' => if String.eqb k x then Some l else env_get en' x
  end.

(** [en[x] = l] *)
Fixpoint env_set (en : Env) (x : string) (l : num) : Env :=
  match en with
  | [] => [(x, l)]
  | (k, w) :: en' =>
      if String.eqb k x then (k, l) :: en' else (k, w) :: env_set en' x l
  end.

(** [d1.update(d2)] *)
Definition env_update (d1 d2 : Env) : Env :=
  fold_left (fun d kv => env_set d (fst kv) (snd kv)) d2 d1.

Fixpoint sto_get (st : Sto) (l : num) : option num :=
  match st with
  | [] => None
  | (k, v) :: st' => if num_eq k l then Some v else sto_get st' l
  end.

(** [st[l] = v]: an equal key keeps its place and its key object. *)
Fixpoint sto_set (st : Sto) (l : num) (v : num) : Sto :=
  match st with
  | [] => [(l, v)]
  | (k, w) :: st' =>
      if num_eq k l then (k, v) :: st' else (k, w) :: sto_set st' l v
  end.

(** [k in ls] *)
Definition py_in (k : num) (ls : list num) : bool :=
  existsb (fun item => num_eq item k) ls.

(** [max(l)] of a non-empty list whose first element is [m]. *)
Fixpoint py_max (m : num) (l : list num) : num :=
  match l with
  | [] => m
  | x :: l' => py_max (if num_gt x m then x else m) l'
  end.

(** ** The automaton state *)

(** The dict a [DecπAut] is, with its five entries, and the heap of list
    objects; [locs] is the address of the list [self["locs"]]. *)
Record state : Type := mkState {
  locs : nat;
  heap : list (list num);
  env : Env;
  sto : Sto;
  val : ValueStack;
  cnt : ControlStack
}.

Definition set_locs (r : nat) (s : state) : state :=
  mkState r (heap s) (env s) (sto s) (val s) (cnt s).
Definition set_heap (h : list (list num)) (s : state) : state :=
  mkState (locs s) h (env s) (sto s) (val s) (cnt s).
Definition set_env (en : Env) (s : state) : state :=
  mkState (locs s) (heap s) en (sto s) (val s) (cnt s).
Definition set_sto (st : Sto) (s : state) : state :=
  mkState (locs s) (heap s) (env s) st (val s) (cnt s).
Definition set_val (vs : ValueStack) (s : state) : state :=
  mkState (locs s) (heap s) (env s) (sto s) vs (cnt s).
Definition set_cnt (cs : ControlStack) (s : state) : state :=
  mkState (locs s) (heap s) (env s) (sto s) (val s) cs.

(** [DecπAut()]: empty stacks, empty environment and store, empty ledger. *)
Definition DecAut_init : state := mkState 0 [[]] [] [] [] [].

(** The list [self["locs"]] currently holds. *)
Definition ledger (s : state) : option (list num) := heap s !! locs s.

(** ** A state and exception monad for the methods *)

Definition M (A : Type) : Type := state -> result (A * state).

Definition ret {A} (a : A) : M A := fun s => Ok (a, s).
Definition raise {A} (e : error) : M A := fun _ => Err e.
Definition bind {A B} (m : M A) (k : A -> M B) : M B :=
  fun s => match m s with
           | Ok (a, s') => k a s'
           | Err e => Err e
           end.
Definition lift {A} (r : result A) : M A :=
  fun s => match r with Ok a => Ok (a, s) | Err e => Err e end.
Definition get {A} (f : state -> A) : M A := fun s => Ok (f s, s).
Definition modify (f : state -> state) : M unit := fun s => Ok (tt, f s).

Declare Scope pi_scope.
Delimit Scope pi_scope with pi.
Notation "x <- m ;; k" := (bind m (fun x => k))
  (at level 100, m at next level, right associativity) : pi_scope.
Notation "m ;; k" := (bind m (fun _ => k))
  (at level 100, right associativity) : pi_scope.
Local Open Scope pi_scope.

Definition exec (m : M unit) (s : state) : result state :=
  match m s with
  | Ok (_, s') => Ok s'
  | Err e => Err e
  end.

(** ** [ExpπAut] *)

(** A private method [__evalX] of the classes is [evalX] here. *)

Module ExpKW.
Definition SUM := "#SUM".
Definition SUB := "#SUB".
Definition MUL := "#MUL".
Definition EQ := "#EQ".
Definition NOT := "#NOT".
End ExpKW.

Definition pushVal (v : value) : M unit :=
  modify (fun s => set_val (v :: val s) s).

Definition popVal : M value :=
  fun s => match val s with
           | [] => Err IndexError
           | v :: vs => Ok (v, set_val vs s)
           end.

Definition pushCnt (e : value) : M unit :=
  modify (fun s => set_cnt (e :: cnt s) s).

Definition popCnt : M value :=
  fun s => match cnt s with
           | [] => Err IndexError
           | c :: cs => Ok (c, set_cnt cs s)
           end.

Definition emptyCnt (s : state) : bool :=
  Nat.eqb (length (cnt s)) 0.

Definition evalSum (e1 e2 : Exp) : M unit :=
  pushCnt (VStr ExpKW.SUM) ;; pushCnt (VTerm e1) ;; pushCnt (VTerm e2).

Definition evalSumKW : M unit :=
  v1 <- popVal ;; v2 <- popVal ;; r <- lift (py_add v1 v2) ;; pushVal r.

Definition evalMul (e1 e2 : Exp) : M unit :=
  pushCnt (VStr ExpKW.MUL) ;; pushCnt (VTerm e1) ;; pushCnt (VTerm e2).

Definition evalMulKW : M unit :=
  v1 <- popVal ;; v2 <- popVal ;; r <- lift (py_mul v1 v2) ;; pushVal r.

Definition evalSub (e1 e2 : Exp) : M unit :=
  pushCnt (VStr ExpKW.SUB) ;; pushCnt (VTerm e1) ;; pushCnt (VTerm e2).

Definition evalSubKW : M unit :=
  v1 <- popVal ;; v2 <- popVal ;; r <- lift (py_sub v1 v2) ;; pushVal r.

Definition evalNum (f : float) : M unit :=
  pushVal (VNum (NFloat f)).

Definition evalEq (e1 e2 : Exp) : M unit :=
  pushCnt (VStr ExpKW.EQ) ;; pushCnt (VTerm e1) ;; pushCnt (VTerm e2).

Definition evalEqKW : M unit :=
  v1 <- popVal ;; v2 <- popVal ;; b <- lift (py_eq v1 v2) ;;
  pushVal (VNum (NBool b)).

Definition evalNot (e : Exp) : M unit :=
  pushCnt (VStr ExpKW.NOT) ;; pushCnt (VTerm e).

Definition evalNotKW : M unit :=
  v <- popVal ;; h <- get heap ;; b <- lift (py_truth h v) ;;
  pushVal (VNum (NBool (negb b))).

(** [ExpπAut.eval]: pop, then the [if]/[elif] chain.  Its tests exclude
    one another (a class test holds of a term, a marker test of a string),
    so the chain is a match on the popped object. *)
Definition ExpAut_dispatch (e : value) : M unit :=
  match e with
  | VTerm (SExp (Sum e1 e2)) => evalSum e1 e2
  | VTerm (SExp (Sub e1 e2)) => evalSub e1 e2
  | VTerm (SExp (Mul e1 e2)) => evalMul e1 e2
  | VTerm (SExp (Num f)) => evalNum f
  | VTerm (SExp (BExp (Eq e1 e2))) => evalEq e1 e2
  | VTerm (SExp (BExp (Not e1))) => evalNot e1
  | VStr k =>
      if String.eqb k ExpKW.SUM then evalSumKW
      else if String.eqb k ExpKW.SUB then evalSubKW
      else if String.eqb k ExpKW.MUL then evalMulKW
      else if String.eqb k ExpKW.EQ then evalEqKW
      else if String.eqb k ExpKW.NOT then evalNotKW
      else raise (IllFormed e)
  | _ => raise (IllFormed e)
  end.

Definition ExpAut_eval : M unit :=
  e <- popCnt ;; ExpAut_dispatch e.

(** ** [CmdπAut] *)

Module CmdKW.
Definition ASSIGN := "#ASSIGN".
Definition LOOP := "#LOOP".
End CmdKW.

(** [getLoc]: [en[i]].  Every key of an environment is a string; a
    number or a term is hashable and absent, a dict or a list is not
    hashable. *)
Definition getLoc (i : value) : M num :=
  fun s => match i with
           | VStr x =>
               match env_get (env s) x with
               | Some l => Ok (l, s)
               | None => Err KeyError
               end
           | VNum _ | VTerm _ => Err KeyError
           | VDict _ | VEnv _ | VList _ => Err TypeError
           end.

(** [updateStore]: [st[l] = v].  Where [l] is a NaN, Python stores under
    the key object [l] itself, which only identity finds again; the model
    stops there.  The store of the model holds numbers. *)
Definition updateStore (l : num) (v : value) : M unit :=
  fun s => match v with
           | VNum n =>
               if num_is_nan l then Err OutOfModel
               else Ok (tt, set_sto (sto_set (sto s) l n) s)
           | _ => Err OutOfModel
           end.

Definition evalAssign (i : string) (e : Exp) : M unit :=
  pushVal (VStr i) ;; pushCnt (VStr CmdKW.ASSIGN) ;; pushCnt (VTerm e).

Definition evalAssignKW : M unit :=
  v <- popVal ;; i <- popVal ;; l <- getLoc i ;; updateStore l v.

Definition evalId (i : string) : M unit :=
  s <- get sto ;;
  l <- getLoc (VStr i) ;;
  if num_is_nan l then raise OutOfModel
  else match sto_get s l with
       | Some v => pushVal (VNum v)
       | None => raise KeyError
       end.

Definition evalLoop (be : BoolExp) (bl : Cmd) : M unit :=
  lo <- lift (Loop_init (VTerm be) (VTerm bl)) ;;
  pushVal (VTerm lo) ;;
  pushVal (VTerm bl) ;;
  pushCnt (VStr CmdKW.LOOP) ;;
  pushCnt (VTerm be).

Definition evalLoopKW : M unit :=
  t <- popVal ;;
  h <- get heap ;;
  b <- lift (py_truth h t) ;;
  if b then
    c <- popVal ;; lo <- popVal ;; pushCnt lo ;; pushCnt c
  else
    popVal ;; popVal ;; ret tt.

Definition evalCSeq (c1 c2 : Cmd) : M unit :=
  pushCnt (VTerm c2) ;; pushCnt (VTerm c1).

(** [CmdπAut.eval] *)
Definition CmdAut_dispatch (c : value) : M unit :=
  match c with
  | VTerm (SCmd (Assign i e)) => evalAssign i e
  | VTerm (SExp (Id i)) => evalId i
  | VTerm (SCmd (Loop be bl)) => evalLoop be bl
  | VTerm (SCmd (CSeq c1 c2)) => evalCSeq c1 c2
  | VStr k =>
      if String.eqb k CmdKW.ASSIGN then evalAssignKW
      else if String.eqb k CmdKW.LOOP then evalLoopKW
      else pushCnt c ;; ExpAut_eval
  | _ => pushCnt c ;; ExpAut_eval
  end.

Definition CmdAut_eval : M unit :=
  c <- popCnt ;; CmdAut_dispatch c.

(** ** [DecπAut] *)

Module DecExpKW.
Definition REF := "#REF".
Definition CNS := "#CNS".
End DecExpKW.

Module DecCmdKW.
Definition BLKDEC := "#BLKDEC".
Definition BLKCMD := "#BLKCMD".
End DecCmdKW.

Module DecKW.
Definition BIND := "#BIND".
Definition DSEQ := "#DSEQ".
End DecKW.

(** [pushLoc]: append to the list object [self["locs"]] in place. *)
Definition pushLoc (l : num) : M unit :=
  fun s => match heap s !! locs s with
           | Some ls => Ok (tt, set_heap (<[locs s := ls ++ [l]]> (heap s)) s)
           | None => Err OutOfModel
           end.

Definition evalRef (e : Exp) : M unit :=
  pushCnt (VStr DecExpKW.REF) ;; pushCnt (VTerm e).

(** [__newLoc]: [max(list(sto.keys())) + 1], or [0.0] for an empty store. *)
Definition newLoc : M num :=
  fun s => match map fst (sto s) with
           | [] => Ok (NFloat 0%float, s)
           | k :: ks =>
               match num_add (py_max k ks) (NInt 1) with
               | Ok l => Ok (l, s)
               | Err e => Err e
               end
           end.

Definition evalRefKW : M unit :=
  v <- popVal ;;
  l <- newLoc ;;
  updateStore l v ;;
  pushLoc l ;;
  pushVal (VNum l).

Definition evalBind (i : string) (e : Exp) : M unit :=
  pushVal (VTerm (Id i)) ;; pushCnt (VStr DecKW.BIND) ;; pushCnt (VTerm e).

(** [__evalBindKW]: [x = i.opr[0]] needs a term; the dict [{x:l}] of the
    model has a string key and a number as location. *)
Definition evalBindKW : M unit :=
  l <- popVal ;;
  i <- popVal ;;
  match i with
  | VTerm (SExp (Id x)) =>
      match l with
      | VNum n => pushVal (VDict [(x, n)])
      | _ => raise OutOfModel
      end
  | VTerm _ => raise OutOfModel
  | _ => raise AttributeError
  end.

Definition evalDSeq (d1 d2 : Dec) : M unit :=
  pushCnt (VStr DecKW.DSEQ) ;; pushCnt (VTerm d2) ;; pushCnt (VTerm d1).

(** [__evalDSeqKW]: [d1.update(d2)] changes [d1] in place, which is
    harmless for a dict no one else references. *)
Definition evalDSeqKW : M unit :=
  d2 <- popVal ;;
  d1 <- popVal ;;
  match d1 with
  | VDict m1 =>
      match d2 with
      | VDict m2 | VEnv m2 => pushVal (VDict (env_update m1 m2))
      | _ => raise OutOfModel
      end
  | VEnv _ => raise OutOfModel
  | _ => raise AttributeError
  end.

(** [__evalBlk]: [l.copy()] makes a new list object. *)
Definition evalBlk (ld : Dec) (c : Cmd) : M unit :=
  h <- get heap ;;
  r <- get locs ;;
  match h !! r with
  | Some l =>
      modify (set_heap (h ++ [l])) ;;
      pushVal (VList (length h)) ;;
      pushVal (VTerm c) ;;
      pushCnt (VStr DecCmdKW.BLKDEC) ;;
      pushCnt (VTerm ld)
  | None => raise OutOfModel
  end.

(** [__evalBlkDecKW]: the list pushed is [self["locs"]] itself. *)
Definition evalBlkDecKW : M unit :=
  d <- popVal ;;
  c <- popVal ;;
  l <- get locs ;;
  pushVal (VList l) ;;
  en <- get env ;;
  match d with
  | VDict m | VEnv m =>
      pushVal (VEnv en) ;;
      modify (set_env (env_update en m)) ;;
      pushCnt (VStr DecCmdKW.BLKCMD) ;;
      pushCnt c
  | _ => raise OutOfModel
  end.

(** The dict comprehension of [__evalBlkCmdKW]. *)
Definition sto_remove (ls : list num) (st : Sto) : Sto :=
  List.filter (fun kv => negb (py_in (fst kv) ls)) st.

Definition evalBlkCmdKW : M unit :=
  en <- popVal ;;
  ls <- popVal ;;
  match en with
  | VDict m | VEnv m =>
      modify (set_env m) ;;
      s <- get sto ;;
      h <- get heap ;;
      match ls with
      | VList r =>
          match h !! r with
          | Some l =>
              if existsb num_is_nan (map fst s) then raise OutOfModel
              else
                modify (set_sto (sto_remove l s)) ;;
                ols <- popVal ;;
                match ols with
                | VList r' => modify (set_locs r')
                | _ => raise OutOfModel
                end
          | None => raise OutOfModel
          end
      | _ => raise OutOfModel
      end
  | _ => raise OutOfModel
  end.

(** [DecπAut.eval] *)
Definition DecAut_dispatch (d : value) : M unit :=
  match d with
  | VTerm (SDec (Bind i e)) => evalBind i e
  | VTerm (SDec (DSeq d1 d2)) => evalDSeq d1 d2
  | VTerm (SExp (Ref e)) => evalRef e
  | VTerm (SCmd (Blk ld c)) => evalBlk ld c
  | VStr k =>
      if String.eqb k DecKW.BIND then evalBindKW
      else if String.eqb k DecKW.DSEQ then evalDSeqKW
      else if String.eqb k DecExpKW.REF then evalRefKW
      else if String.eqb k DecCmdKW.BLKDEC then evalBlkDecKW
      else if String.eqb k DecCmdKW.BLKCMD then evalBlkCmdKW
      else pushCnt d ;; CmdAut_eval
  | _ => pushCnt d ;; CmdAut_eval
  end.

Definition DecAut_eval : M unit :=
  d <- popCnt ;; DecAut_dispatch d.

(** One step of the automaton: a call [dc.eval()]. *)
Definition eval (s : state) : result state := exec DecAut_eval s.

(** [n] successive calls of [eval]. *)
Fixpoint run (n : nat) (s : state) : result state :=
  match n with
  | O => Ok s
  | S n' =>
      match eval s with
      | Ok s' => run n' s'
      | Err e => Err e
      end
  end.

(** The driver [while not dc.emptyCnt(): dc.eval()], with at most [fuel]
    calls: [None] when the fuel runs out before the control stack is
    empty. *)
Fixpoint drive (fuel : nat) (s : state) : option (result state) :=
  if emptyCnt s then Some (Ok s)
  else match fuel with
       | O => None
       | S fuel' =>
           match eval s with
           | Ok s' => drive fuel' s'
           | Err e => Some (Err e)
           end
       end.

(** A machine with the given environment and store, an empty ledger and
    empty stacks, after [pushCnt(t)]. *)
Definition seed (en : Env) (st : Sto) (t : Statement) : state :=
  set_cnt [VTerm t] (set_sto st (set_env en DecAut_init)).

(** The locations handed out by the [#REF] steps among the first [n]
    steps from [s], in order. *)
Fixpoint allocated (n : nat) (s : state) : list num :=
  match n with
  | O => []
  | S n' =>
      match eval s with
      | Ok s' =>
          match cnt s, newLoc s with
          | VStr k :: _, Ok (l, _) =>
              if String.eqb k DecExpKW.REF then l :: allocated n' s'
              else allocated n' s'
          | _, _ => allocated n' s'
          end
      | Err _ => []
      end
  end.

(** The factorial example of the file. *)
Definition fac : Cmd :=
  Loop (Not (Eq (Id "y") (Num 0%float)))
       (CSeq (Assign "x" (Mul (Id "x") (Id "y")))
             (Assign "y" (Sub (Id "y") (Num 1%float)))).
Definition dec : Dec :=
  DSeq (Bind "x" (Ref (Num 1%float))) (Bind "y" (Ref (Num 2%float))).
Definition fac_blk : Cmd := Blk dec fac.


(** ** The expression automaton on its own *)

(** A call [ea.eval()] on an [ExpπAut]; only [val] and [cnt] are entries
    of that automaton. *)
Definition ExpAut_step (s : state) : result state := exec ExpAut_eval s.

(** [ExpπAut()] *)
Definition ExpAut_init : state := mkState 0 [[]] [] [] [] [].


(** The driver [while not ea.emptyCnt(): ea.eval()]. *)
Fixpoint ExpAut_drive (fuel : nat) (s : state) : option (result state) :=
  if emptyCnt s then Some (Ok s)
  else match fuel with
       | O => None
       | S fuel' =>
           match ExpAut_step s with
           | Ok s' => ExpAut_drive fuel' s'
           | Err e => Some (Err e)
           end
       end.

(** ** Notions used in the statements *)

(** The driver, given enough fuel, ends on [r] from [s]. *)
Definition finishes (s : state) (r : result state) : Prop :=
  exists n, drive n s = Some r.

(** Expressions built from [Num], [Sum], [Sub], [Mul], [Eq] and [Not]. *)
Fixpoint pure (e : Exp) : bool :=
  match e with
  | Num _ => true
  | Sum e1 e2 | Sub e1 e2 | Mul e1 e2 => pure e1 && pure e2
  | BExp b => pure_bool b
  | Id _ | Ref _ | Cns _ => false
  end
with pure_bool (b : BoolExp) : bool :=
  match b with
  | Eq e1 e2 => pure e1 && pure e2
  | Not e => pure e
  end.

(** What the evaluation of such an expression puts on the control stack. *)
Definition pure_entry (c : value) : bool :=
  match c with
  | VTerm (SExp e) => pure e
  | VStr k =>
      String.eqb k ExpKW.SUM || String.eqb k ExpKW.SUB ||
      String.eqb k ExpKW.MUL || String.eqb k ExpKW.EQ ||
      String.eqb k ExpKW.NOT
  | _ => false
  end.

(** Among the first [n] steps from [s], those that pop an entry
    satisfying [p]. *)
Fixpoint pops (p : value -> bool) (n : nat) (s : state) : nat :=
  match n with
  | O => 0
  | S n' =>
      match eval s with
      | Ok s' =>
          match cnt s with
          | c :: _ => if p c then S (pops p n' s') else pops p n' s'
          | [] => pops p n' s'
          end
      | Err _ => 0
      end
  end.

(** The loop of the factorial example that only counts [y] down. *)
Definition decr_y : Cmd := Assign "y" (Sub (Id "y") (Num 1%float)).
Definition countdown : Cmd :=
  Loop (Not (Eq (Id "y") (Num 0%float))) decr_y.
Definition is_decr_y (c : value) : bool :=
  match c with
  | VTerm (SCmd (Assign i (Sub (Id j) (Num f)))) =>
      String.eqb i "y" && String.eqb j "y" && PrimFloat.Leibniz.eqb f 1%float
  | _ => false
  end.

(** Two blocks one after the other, each with one reference. *)
Definition two_blocks : Cmd :=
  CSeq (Blk (Bind "x" (Ref (Num 1%float))) (Assign "x" (Num 3%float)))
       (Blk (Bind "y" (Ref (Num 2%float))) (Assign "y" (Num 4%float))).

(** The assertion of a constructor: it returns the term when [ok] holds
    and raises [AssertionError] otherwise. *)
Definition asserts (ok : bool) (r : result Statement) : Prop :=
  if ok then exists t, r = Ok t else r = Err AssertionError.

(** A float that is not a NaN, as the locations allocated from an empty
    store are. *)
Definition float_key (k : num) : bool :=
  match k with NFloat f => PrimFloat.eqb f f | _ => false end.

(** What the evaluation of a declaration puts on the control stack:
    declarations, expressions, and their markers. *)
Definition dec_entry (c : value) : bool :=
  match c with
  | VTerm (SExp _) | VTerm (SDec _) => true
  | VStr k =>
      String.eqb k ExpKW.SUM || String.eqb k ExpKW.SUB ||
      String.eqb k ExpKW.MUL || String.eqb k ExpKW.EQ ||
      String.eqb k ExpKW.NOT || String.eqb k DecExpKW.REF ||
      String.eqb k DecKW.BIND || String.eqb k DecKW.DSEQ
  | _ => false
  end.

(** ** The branches of the [eval] methods, one by one *)









(** ** Notions used in the proofs *)

(** The same state with [C] below its control stack. *)
Definition under (C : ControlStack) (s : state) : state :=
  set_cnt (cnt s ++ C) s.

Definition lifted {A} (C : ControlStack) (r : result (A * state)) :
    result (A * state) :=
  match r with
  | Ok (a, s') => Ok (a, under C s')
  | Err e => Err e
  end.

(** A computation that behaves the same with [C] below. *)
Definition lifts {A} (C : ControlStack) (m : M A) : Prop :=
  forall s, m (under C s) = lifted C (m s).

(** A computation that never raises [AssertionError]. *)
Definition quiet {A} (m : M A) : Prop :=
  forall s, m s <> Err AssertionError.

(** What an evaluation may do to the list objects [h] with ledger [l]:
    create new ones, append to the ledger, and leave a new list as
    ledger. *)
Definition hframe (l : nat) (h : list (list num))
    (l' : nat) (h' : list (list num)) : Prop :=
  length h <= length h' /\
  (l' = l \/ length h <= l') /\
  (forall r x, h !! r = Some x -> r <> l -> h' !! r = Some x) /\
  (forall x, h !! l = Some x -> exists y, h' !! l = Some (x ++ y)).

Definition heap_frame (s s' : state) : Prop :=
  hframe (locs s) (heap s) (locs s') (heap s').

Definition stable (s s' : state) : Prop :=
  env s' = env s /\ heap_frame s s'.

(** What the evaluation of a term leaves: an expression a number on top
    of the value stack, a declaration a dict, a command nothing; the
    environment is the one before, and the ledger of an expression or
    declaration is the same list object. *)
Definition post (t : Statement) (s s' : state) : Prop :=
  stable s s' /\
  match t with
  | SExp _ => locs s' = locs s /\ exists v, val s' = VNum v :: val s
  | SDec _ => locs s' = locs s /\ exists m, val s' = VDict m :: val s
  | SCmd _ => val s' = val s
  end.

(** ** Notions used in the further properties *)

(** The exceptions the evaluation of a term can end on. *)
Definition term_error (e : error) : Prop :=
  e = KeyError \/ e = OverflowError \/ e = OutOfModel \/
  exists x, e = IllFormed (VTerm (SExp (Cns x))).

(** The twelve marker strings some branch tests for. *)
Definition known_marker (k : string) : bool :=
  String.eqb k ExpKW.SUM || String.eqb k ExpKW.SUB ||
  String.eqb k ExpKW.MUL || String.eqb k ExpKW.EQ ||
  String.eqb k ExpKW.NOT || String.eqb k CmdKW.ASSIGN ||
  String.eqb k CmdKW.LOOP || String.eqb k DecKW.BIND ||
  String.eqb k DecKW.DSEQ || String.eqb k DecExpKW.REF ||
  String.eqb k DecCmdKW.BLKDEC || String.eqb k DecCmdKW.BLKCMD.

(** The control-stack entries some branch of the three [eval] methods
    takes: every term but [Cns], and the markers but [#CNS]. *)
Definition has_rule (c : value) : bool :=
  match c with
  | VTerm (SExp (Cns _)) => false
  | VTerm _ => true
  | VStr k => known_marker k
  | _ => false
  end.

(** The entries [ExpπAut.eval] has a branch for. *)
Definition exp_entry (c : value) : bool :=
  match c with
  | VTerm (SExp (Num _ | Sum _ _ | Sub _ _ | Mul _ _ | BExp _)) => true
  | VStr k =>
      String.eqb k ExpKW.SUM || String.eqb k ExpKW.SUB ||
      String.eqb k ExpKW.MUL || String.eqb k ExpKW.EQ ||
      String.eqb k ExpKW.NOT
  | _ => false
  end.

(** The markers whose step pops two values at least. *)
Definition pops_two (k : string) : bool :=
  String.eqb k ExpKW.SUM || String.eqb k ExpKW.SUB ||
  String.eqb k ExpKW.MUL || String.eqb k ExpKW.EQ ||
  String.eqb k CmdKW.ASSIGN || String.eqb k DecKW.BIND ||
  String.eqb k DecKW.DSEQ || String.eqb k DecCmdKW.BLKDEC ||
  String.eqb k DecCmdKW.BLKCMD.

(** The entries [CmdπAut.eval] has a branch for, its own or inherited. *)
Definition cmd_entry (c : value) : bool :=
  exp_entry c ||
  match c with
  | VTerm (SExp (Id _)) => true
  | VTerm (SCmd (Assign _ _ | Loop _ _ | CSeq _ _)) => true
  | VStr k => String.eqb k CmdKW.ASSIGN || String.eqb k CmdKW.LOOP
  | _ => false
  end.

(** The names a declaration binds. *)
Fixpoint dec_names (d : Dec) : list string :=
  match d with
  | Bind x _ => [x]
  | DSeq d1 d2 => dec_names d1 ++ dec_names d2
  end.

(** A block in whose body references are made after a nested block. *)
Definition leaky : Cmd :=
  Blk (Bind "x" (Ref (Num 1%float)))
      (CSeq (Blk (Bind "y" (Ref (Num 2%float))) (Assign "y" (Num 3%float)))
            (Assign "x" (Sum (Ref (Num 5%float))
                             (Sum (Ref (Num 6%float)) (Ref (Num 7%float)))))).

(** Expressions in which no [Ref] occurs. *)
Fixpoint ref_free (e : Exp) : bool :=
  match e with
  | Num _ | Id _ => true
  | Sum e1 e2 | Sub e1 e2 | Mul e1 e2 => ref_free e1 && ref_free e2
  | BExp b => ref_free_bool b
  | Ref _ => false
  | Cns e1 => ref_free e1
  end
with ref_free_bool (b : BoolExp) : bool :=
  match b with
  | Eq e1 e2 => ref_free e1 && ref_free e2
  | Not e => ref_free e
  end.

(** What the evaluation of such an expression puts on the control stack. *)
Definition ref_free_entry (c : value) : bool :=
  match c with
  | VTerm (SExp e) => ref_free e
  | VStr k =>
      String.eqb k ExpKW.SUM || String.eqb k ExpKW.SUB ||
      String.eqb k ExpKW.MUL || String.eqb k ExpKW.EQ ||
      String.eqb k ExpKW.NOT
  | _ => false
  end.

(** * Properties *)

(** ** Floats and numbers *)

Lemma float_eqb_sym (x y : float) : PrimFloat.eqb x y = PrimFloat.eqb y x.
Proof.
  rewrite !FloatAxioms.eqb_spec. unfold SFeqb, SFcompare.
  change (PosDef.Pos.compare_cont Datatypes.Eq) with Pos.compare.
  destruct (Prim2SF x) as [ | [] | | [] m1 e1], (Prim2SF y) as [ | [] | | [] m2 e2];
    try reflexivity;
    rewrite (Z.compare_antisym e1 e2), (Pos.compare_antisym m1 m2);
    destruct (e1 ?= e2)%Z; simpl; try reflexivity;
    destruct (m1 ?= m2)%positive; reflexivity.
Qed.

Lemma num_eq_sym (a b : num) : num_eq a b = num_eq b a.
Proof.
  destruct a, b; simpl; try reflexivity;
    try apply float_eqb_sym; apply Z.eqb_sym.
Qed.

(** ** Stores *)

Lemma sto_get_set_same (st : Sto) (l v : num) :
  num_eq l l = true -> sto_get (sto_set st l v) l = Some v.
Proof.
  intros Hl. induction st as [|[k w] st IH]; simpl.
  - now rewrite Hl.
  - destruct (num_eq k l) eqn:E; simpl; rewrite E; auto.
Qed.

Lemma sto_get_remove (ls : list num) (st : Sto) (l : num) :
  In l ls -> sto_get (sto_remove ls st) l = None.
Proof.
  intros Hin. induction st as [|[k w] st IH]; simpl; [reflexivity|].
  unfold sto_remove in *. simpl.
  destruct (py_in k ls) eqn:E; simpl; [exact IH|].
  destruct (num_eq k l) eqn:Ekl; [|exact IH].
  exfalso. unfold py_in in E.
  assert (existsb (fun item => num_eq item k) ls = true) as Hex.
  { apply existsb_exists. exists l. split; [exact Hin|].
    now rewrite num_eq_sym. }
  congruence.
Qed.

(** ** What lies below the top of the control stack is not looked at *)

Section ControlFrame.
Variable C : ControlStack.

Lemma lifts_ret {A} (a : A) : lifts C (ret a).
Proof. intros s. reflexivity. Qed.

Lemma lifts_raise {A} (e : error) : lifts C (@raise A e).
Proof. intros s. reflexivity. Qed.

Lemma lifts_lift {A} (r : result A) : lifts C (lift r).
Proof. intros s. destruct r; reflexivity. Qed.

Lemma lifts_bind {A B} (m : M A) (k : A -> M B) :
  lifts C m -> (forall a, lifts C (k a)) -> lifts C (bind m k).
Proof.
  intros Hm Hk s. unfold bind. rewrite Hm.
  destruct (m s) as [[a s']|e]; simpl; [apply Hk | reflexivity].
Qed.

Lemma lifts_pushVal v : lifts C (pushVal v).
Proof. intros s. reflexivity. Qed.

Lemma lifts_popVal : lifts C popVal.
Proof. intros s. unfold popVal. simpl. destruct (val s); reflexivity. Qed.

Lemma lifts_pushCnt e : lifts C (pushCnt e).
Proof. intros s. reflexivity. Qed.

Lemma lifts_get_heap : lifts C (get heap).
Proof. intros s. reflexivity. Qed.
Lemma lifts_get_env : lifts C (get env).
Proof. intros s. reflexivity. Qed.
Lemma lifts_get_sto : lifts C (get sto).
Proof. intros s. reflexivity. Qed.
Lemma lifts_get_locs : lifts C (get locs).
Proof. intros s. reflexivity. Qed.

Lemma lifts_set_env en : lifts C (modify (set_env en)).
Proof. intros s. reflexivity. Qed.
Lemma lifts_set_sto st : lifts C (modify (set_sto st)).
Proof. intros s. reflexivity. Qed.
Lemma lifts_set_locs r : lifts C (modify (set_locs r)).
Proof. intros s. reflexivity. Qed.

Lemma lifts_getLoc i : lifts C (getLoc i).
Proof.
  intros s. unfold getLoc. simpl.
  destruct i; try reflexivity. destruct (env_get (env s) s0); reflexivity.
Qed.

Lemma lifts_updateStore l v : lifts C (updateStore l v).
Proof.
  intros s. unfold updateStore.
  destruct v; try reflexivity. destruct (num_is_nan l); reflexivity.
Qed.

Lemma lifts_pushLoc l : lifts C (pushLoc l).
Proof.
  intros s. unfold pushLoc. simpl. destruct (heap s !! locs s); reflexivity.
Qed.

Lemma lifts_newLoc : lifts C newLoc.
Proof.
  intros s. unfold newLoc. simpl.
  destruct (map fst (sto s)); [reflexivity|].
  destruct (num_add _ _); reflexivity.
Qed.

Lemma lifts_set_heap h : lifts C (modify (set_heap h)).
Proof. intros s. reflexivity. Qed.

Create HintDb lifts.
Hint Resolve lifts_ret lifts_raise lifts_lift lifts_pushVal lifts_popVal
  lifts_pushCnt lifts_get_heap lifts_get_env lifts_get_sto lifts_get_locs
  lifts_set_env lifts_set_sto lifts_set_locs lifts_getLoc lifts_updateStore
  lifts_pushLoc lifts_newLoc lifts_set_heap : lifts.

Ltac lifts_tac :=
  repeat (intros;
          first [ solve [auto with lifts]
                | apply lifts_bind
                | progress case_match ]).

Lemma lifts_evalSum e1 e2 : lifts C (evalSum e1 e2).
Proof. unfold evalSum. lifts_tac. Qed.
Lemma lifts_evalSub e1 e2 : lifts C (evalSub e1 e2).
Proof. unfold evalSub. lifts_tac. Qed.
Lemma lifts_evalMul e1 e2 : lifts C (evalMul e1 e2).
Proof. unfold evalMul. lifts_tac. Qed.
Lemma lifts_evalEq e1 e2 : lifts C (evalEq e1 e2).
Proof. unfold evalEq. lifts_tac. Qed.
Lemma lifts_evalNot e : lifts C (evalNot e).
Proof. unfold evalNot. lifts_tac. Qed.
Lemma lifts_evalNum f : lifts C (evalNum f).
Proof. unfold evalNum. lifts_tac. Qed.
Lemma lifts_evalSumKW : lifts C evalSumKW.
Proof. unfold evalSumKW. lifts_tac. Qed.
Lemma lifts_evalSubKW : lifts C evalSubKW.
Proof. unfold evalSubKW. lifts_tac. Qed.
Lemma lifts_evalMulKW : lifts C evalMulKW.
Proof. unfold evalMulKW. lifts_tac. Qed.
Lemma lifts_evalEqKW : lifts C evalEqKW.
Proof. unfold evalEqKW. lifts_tac. Qed.
Lemma lifts_evalNotKW : lifts C evalNotKW.
Proof. unfold evalNotKW. lifts_tac. Qed.
Lemma lifts_evalAssign i e : lifts C (evalAssign i e).
Proof. unfold evalAssign. lifts_tac. Qed.
Lemma lifts_evalAssignKW : lifts C evalAssignKW.
Proof. unfold evalAssignKW. lifts_tac. Qed.
Lemma lifts_evalId i : lifts C (evalId i).
Proof. unfold evalId. lifts_tac. Qed.
Lemma lifts_evalLoop be bl : lifts C (evalLoop be bl).
Proof. unfold evalLoop. lifts_tac. Qed.
Lemma lifts_evalLoopKW : lifts C evalLoopKW.
Proof. unfold evalLoopKW. lifts_tac. Qed.
Lemma lifts_evalCSeq c1 c2 : lifts C (evalCSeq c1 c2).
Proof. unfold evalCSeq. lifts_tac. Qed.
Lemma lifts_evalRef e : lifts C (evalRef e).
Proof. unfold evalRef. lifts_tac. Qed.
Lemma lifts_evalRefKW : lifts C evalRefKW.
Proof. unfold evalRefKW. lifts_tac. Qed.
Lemma lifts_evalBind i e : lifts C (evalBind i e).
Proof. unfold evalBind. lifts_tac. Qed.
Lemma lifts_evalBindKW : lifts C evalBindKW.
Proof. unfold evalBindKW. lifts_tac. Qed.
Lemma lifts_evalDSeq d1 d2 : lifts C (evalDSeq d1 d2).
Proof. unfold evalDSeq. lifts_tac. Qed.
Lemma lifts_evalDSeqKW : lifts C evalDSeqKW.
Proof. unfold evalDSeqKW. lifts_tac. Qed.
Lemma lifts_evalBlk ld c : lifts C (evalBlk ld c).
Proof. unfold evalBlk. lifts_tac. Qed.
Lemma lifts_evalBlkDecKW : lifts C evalBlkDecKW.
Proof. unfold evalBlkDecKW. lifts_tac. Qed.
Lemma lifts_evalBlkCmdKW : lifts C evalBlkCmdKW.
Proof. unfold evalBlkCmdKW. lifts_tac. Qed.

Hint Resolve lifts_evalSum lifts_evalSub lifts_evalMul lifts_evalEq
  lifts_evalNot lifts_evalNum lifts_evalSumKW lifts_evalSubKW
  lifts_evalMulKW lifts_evalEqKW lifts_evalNotKW lifts_evalAssign
  lifts_evalAssignKW lifts_evalId lifts_evalLoop lifts_evalLoopKW
  lifts_evalCSeq lifts_evalRef lifts_evalRefKW lifts_evalBind
  lifts_evalBindKW lifts_evalDSeq lifts_evalDSeqKW lifts_evalBlk
  lifts_evalBlkDecKW
  lifts_evalBlkCmdKW : lifts.

(** A layer's [eval] pops first, so it lifts C once something has been
    pushed. *)
Lemma lifts_push_pop c (k : value -> M unit) :
  (forall e, lifts C (k e)) -> lifts C (pushCnt c ;; (e <- popCnt ;; k e)).
Proof.
  intros Hk [l h en st vs cs]. specialize (Hk c (mkState l h en st vs cs)).
  exact Hk.
Qed.

Lemma lifts_ExpAut_dispatch e : lifts C (ExpAut_dispatch e).
Proof. unfold ExpAut_dispatch. lifts_tac. Qed.

Lemma lifts_push_ExpAut c : lifts C (pushCnt c ;; ExpAut_eval).
Proof. apply lifts_push_pop, lifts_ExpAut_dispatch. Qed.
Hint Resolve lifts_push_ExpAut : lifts.

Lemma lifts_CmdAut_dispatch c : lifts C (CmdAut_dispatch c).
Proof. unfold CmdAut_dispatch. lifts_tac. Qed.

Lemma lifts_push_CmdAut c : lifts C (pushCnt c ;; CmdAut_eval).
Proof. apply lifts_push_pop, lifts_CmdAut_dispatch. Qed.
Hint Resolve lifts_push_CmdAut : lifts.

Lemma lifts_DecAut_dispatch d : lifts C (DecAut_dispatch d).
Proof. unfold DecAut_dispatch. lifts_tac. Qed.

(** One step with [C] below a non-empty control stack. *)
Lemma eval_under s :
  cnt s <> [] -> eval (under C s) = rmap (under C) (eval s).
Proof.
  destruct s as [l h en st vs [|c cs]]; [intros H; now elim H|]. intros _.
  pose proof (lifts_DecAut_dispatch c (mkState l h en st vs cs)) as H.
  unfold eval, exec, DecAut_eval, bind, popCnt.
  change (DecAut_dispatch c (under C (mkState l h en st vs cs)) =
          lifted C (DecAut_dispatch c (mkState l h en st vs cs))) in H.
  change (match DecAut_dispatch c (under C (mkState l h en st vs cs)) with
          | Ok (_, s') => Ok s'
          | Err e => Err e
          end =
          rmap (under C)
            match DecAut_dispatch c (mkState l h en st vs cs) with
            | Ok (_, s') => Ok s'
            | Err e => Err e
            end).
  rewrite H.
  destruct (DecAut_dispatch c (mkState l h en st vs cs)) as [[[] s']|e];
    reflexivity.
Qed.
End ControlFrame.

(** ** The driver *)

Lemma emptyCnt_nil s : emptyCnt s = true <-> cnt s = [].
Proof.
  unfold emptyCnt. destruct (cnt s); simpl; split; congruence.
Qed.

Lemma emptyCnt_under C s : emptyCnt s = false -> emptyCnt (under C s) = false.
Proof.
  unfold emptyCnt, under. simpl. destruct (cnt s); simpl; congruence.
Qed.

Lemma under_nil C s : cnt s = [] -> under C s = set_cnt C s.
Proof. intros H. unfold under. now rewrite H. Qed.

Lemma drive_step n s :
  emptyCnt s = false ->
  drive (S n) s = match eval s with
                  | Ok s' => drive n s'
                  | Err e => Some (Err e)
                  end.
Proof. intros E. simpl. now rewrite E. Qed.

Lemma drive_done n s : emptyCnt s = true -> drive n s = Some (Ok s).
Proof. intros E. destruct n; simpl; now rewrite E. Qed.

(** The driver stops exactly when the control stack is empty. *)
Lemma drive_Ok_empty n s s' : drive n s = Some (Ok s') -> cnt s' = [].
Proof.
  revert s. induction n as [|n IH]; intros s; simpl;
    destruct (emptyCnt s) eqn:E; try discriminate.
  - intros [= <-]. now apply emptyCnt_nil.
  - intros [= <-]. now apply emptyCnt_nil.
  - destruct (eval s); [apply IH | discriminate].
Qed.

(** More fuel does not change an outcome. *)
Lemma drive_mono n m s r : drive n s = Some r -> n <= m -> drive m s = Some r.
Proof.
  revert m s. induction n as [|n IH]; intros m s; simpl.
  - destruct (emptyCnt s) eqn:E; [|discriminate].
    intros H _. destruct m; simpl; now rewrite E.
  - destruct (emptyCnt s) eqn:E.
    + intros H _. destruct m; simpl; now rewrite E.
    + intros H Hle. destruct m as [|m]; [lia|]. simpl. rewrite E.
      destruct (eval s); [|exact H]. apply IH; [exact H | lia].
Qed.

(** Two runs of the driver from one state agree, whatever their fuel. *)
Lemma drive_functional n1 n2 s r1 r2 :
  drive n1 s = Some r1 -> drive n2 s = Some r2 -> r1 = r2.
Proof.
  intros H1 H2.
  apply (drive_mono _ (Nat.max n1 n2)) in H1; [|lia].
  apply (drive_mono _ (Nat.max n1 n2)) in H2; [|lia].
  congruence.
Qed.

(** A run with [C] below: first the run without [C], then [C]. *)
Lemma drive_under_Ok C n s s1 m r :
  drive n s = Some (Ok s1) -> drive m (set_cnt C s1) = Some r ->
  drive (n + m) (under C s) = Some r.
Proof.
  revert s. induction n as [|n IH]; intros s H1 H2.
  - simpl in H1. destruct (emptyCnt s) eqn:E; [|discriminate].
    injection H1 as <-. apply emptyCnt_nil in E. now rewrite under_nil.
  - destruct (emptyCnt s) eqn:E.
    + simpl in H1. rewrite E in H1. injection H1 as <-.
      apply emptyCnt_nil in E. rewrite under_nil by exact E.
      apply (drive_mono m); [exact H2 | lia].
    + simpl in H1. rewrite E in H1. simpl.
      rewrite emptyCnt_under by exact E.
      rewrite eval_under by (intros Hn; apply emptyCnt_nil in Hn; congruence).
      destruct (eval s) as [s'|e]; [|discriminate]. simpl. now apply IH.
Qed.

Lemma drive_under_Err C n s e :
  drive n s = Some (Err e) -> drive n (under C s) = Some (Err e).
Proof.
  revert s. induction n as [|n IH]; intros s; simpl;
    destruct (emptyCnt s) eqn:E; try discriminate.
  rewrite emptyCnt_under by exact E.
  rewrite eval_under by (intros Hn; apply emptyCnt_nil in Hn; congruence).
  destruct (eval s) as [s'|e']; simpl; [apply IH | auto].
Qed.

(** Conversely, a run with [C] below goes through the end of the run
    without [C]. *)
Lemma drive_under_inv C n s r :
  drive n (under C s) = Some r ->
  (exists s1, drive n s = Some (Ok s1) /\ drive n (set_cnt C s1) = Some r)
  \/ (exists e, r = Err e /\ drive n s = Some (Err e)).
Proof.
  revert s. induction n as [|n IH]; intros s H.
  - destruct (emptyCnt s) eqn:E.
    + left. exists s. rewrite drive_done by exact E. split; [reflexivity|].
      apply emptyCnt_nil in E. now rewrite <- under_nil.
    + simpl in H. rewrite emptyCnt_under in H by exact E. discriminate.
  - destruct (emptyCnt s) eqn:E.
    + left. exists s. rewrite drive_done by exact E. split; [reflexivity|].
      apply emptyCnt_nil in E. now rewrite <- under_nil.
    + rewrite drive_step in H by (now apply emptyCnt_under).
      rewrite eval_under in H
        by (intros Hn; apply emptyCnt_nil in Hn; congruence).
      rewrite (drive_step n s E).
      destruct (eval s) as [s'|e]; simpl in H.
      * destruct (IH _ H) as [(s1 & H1 & H2)|(e & -> & H1)].
        -- left. exists s1. split; [exact H1|].
           apply (drive_mono n); [exact H2 | lia].
        -- right. eauto.
      * right. exists e. split; congruence.
Qed.

(** The same, for a control stack given by its top and the rest. *)
Lemma drive_cons n l h en st vs c C r :
  drive n (mkState l h en st vs (c :: C)) = Some r ->
  (exists s1, drive n (mkState l h en st vs [c]) = Some (Ok s1) /\
              drive n (set_cnt C s1) = Some r)
  \/ (exists e, r = Err e /\
                drive n (mkState l h en st vs [c]) = Some (Err e)).
Proof. apply (drive_under_inv C n (mkState l h en st vs [c])). Qed.

Lemma drive_cons_Ok n m l h en st vs c C s1 r :
  drive n (mkState l h en st vs [c]) = Some (Ok s1) ->
  drive m (set_cnt C s1) = Some r ->
  drive (n + m) (mkState l h en st vs (c :: C)) = Some r.
Proof. apply (drive_under_Ok C n (mkState l h en st vs [c])). Qed.

Lemma drive_cons_Err n l h en st vs c C e :
  drive n (mkState l h en st vs [c]) = Some (Err e) ->
  drive n (mkState l h en st vs (c :: C)) = Some (Err e).
Proof. apply (drive_under_Err C n (mkState l h en st vs [c])). Qed.

(** ** Stack discipline of a term's evaluation *)

Lemma hframe_refl l h : hframe l h l h.
Proof.
  repeat split; auto. intros x H. exists []. now rewrite app_nil_r.
Qed.

Lemma hframe_trans l1 h1 l2 h2 l3 h3 :
  hframe l1 h1 l2 h2 -> hframe l2 h2 l3 h3 -> hframe l1 h1 l3 h3.
Proof.
  intros (Hlen1 & Hloc1 & Hoth1 & Hcur1) (Hlen2 & Hloc2 & Hoth2 & Hcur2).
  repeat split.
  - lia.
  - destruct Hloc1 as [E1|L1], Hloc2 as [E2|L2];
      [left; congruence|right; lia..].
  - intros r x Hr Hne. apply Hoth2; [now apply Hoth1|].
    apply lookup_lt_Some in Hr.
    destruct Hloc1 as [E1|L1]; [congruence | lia].
  - intros x Hx. destruct (Hcur1 x Hx) as [y1 H1].
    destruct Hloc1 as [E1|L1].
    + subst l2. destruct (Hcur2 _ H1) as [y2 H2]. exists (y1 ++ y2).
      now rewrite app_assoc.
    + exists y1. apply Hoth2; [exact H1|].
      apply lookup_lt_Some in Hx. lia.
Qed.

(** Appending to the ledger. *)
Lemma hframe_pushLoc l h x a :
  h !! l = Some x -> hframe l h l (<[l := x ++ [a]]> h).
Proof.
  intros Hx. unfold hframe. rewrite length_insert.
  repeat split; auto.
  - intros r y Hr Hne. rewrite list_lookup_insert_ne; auto.
  - intros y Hy. exists [a]. rewrite list_lookup_insert_eq.
    + congruence.
    + now apply lookup_lt_Some in Hx.
Qed.

(** Creating a list object. *)
Lemma hframe_alloc l h x : hframe l h l (h ++ [x]).
Proof.
  unfold hframe. rewrite length_app.
  repeat split; auto; [lia | |].
  - intros r y Hr _. rewrite lookup_app_l; [exact Hr|].
    now apply lookup_lt_Some in Hr.
  - intros y Hy. exists []. rewrite app_nil_r, lookup_app_l; [exact Hy|].
    now apply lookup_lt_Some in Hy.
Qed.

(** Taking a list created since as the ledger. *)
Lemma hframe_relocate l h l' h' r :
  hframe l h l' h' -> length h <= r -> hframe l h r h'.
Proof.
  intros (Hlen & _ & Hoth & Hcur) Hr. repeat split; auto.
Qed.

(** Symbolic execution of one step: unfold the automaton, not the
    arithmetic or the dictionaries. *)
Ltac machine_cbv t :=
  eval cbv [eval exec DecAut_eval DecAut_dispatch CmdAut_eval CmdAut_dispatch
            ExpAut_eval ExpAut_dispatch bind ret raise lift get modify
            popCnt pushCnt popVal pushVal
            evalSum evalSumKW evalSub evalSubKW evalMul evalMulKW evalNum
            evalEq evalEqKW evalNot evalNotKW
            evalAssign evalAssignKW evalId evalLoop evalLoopKW evalCSeq
            evalRef evalRefKW evalBind evalBindKW evalDSeq evalDSeqKW
            evalBlk evalBlkDecKW evalBlkCmdKW getLoc updateStore pushLoc newLoc
            Loop_init
            set_cnt set_val set_env set_sto set_heap set_locs
            locs heap env sto val cnt
            String.eqb Ascii.eqb Bool.eqb
            ExpKW.SUM ExpKW.SUB ExpKW.MUL ExpKW.EQ ExpKW.NOT
            CmdKW.ASSIGN CmdKW.LOOP DecExpKW.REF DecExpKW.CNS
            DecCmdKW.BLKDEC DecCmdKW.BLKCMD DecKW.BIND DecKW.DSEQ] in t.

(** Execute the call of [eval] in [H], or in the goal. *)
Ltac eval_in H :=
  match type of H with
  | context [eval ?s] =>
      let r := machine_cbv (eval s) in change (eval s) with r in H
  end; cbv beta iota in H.

Ltac eval_goal :=
  match goal with
  | |- context [eval ?s] =>
      let r := machine_cbv (eval s) in change (eval s) with r
  end; cbv beta iota.

(** One call of [eval] in the run [H] of the driver. *)
Ltac step H :=
  rewrite drive_step in H by reflexivity; eval_in H.

(** Case analysis on what the step in [H] is waiting for. *)
Ltac stuck H :=
  match type of H with
  | context [match ?x with _ => _ end] =>
      lazymatch x with
      | context [match _ with _ => _ end] => fail
      | _ => destruct x eqn:?
      end
  end; cbv beta iota in H; try discriminate H.

(** The run [H] starts with the evaluation of the term on top. *)
Ltac subrun H Hs :=
  let s1 := fresh "s" in
  let e := fresh "e" in
  let He := fresh "He" in
  apply drive_cons in H as [(s1 & Hs & H)|(e & He & _)]; [|discriminate He];
  let Hc := fresh "Hc" in
  pose proof (drive_Ok_empty _ _ _ Hs) as Hc;
  destruct s1 as [?l ?h ?en ?st ?vs ?cs]; simpl in Hc; subst;
  unfold set_cnt in H; simpl in H.

Ltac finish H :=
  rewrite drive_done in H by reflexivity; injection H as <-.

Ltac use_post IH Hs :=
  apply IH in Hs; [|lia];
  destruct Hs as [[? ?] ?]; unfold heap_frame in *; simpl in *;
  repeat match goal with
         | H : _ /\ _ |- _ => destruct H
         | H : exists _, _ |- _ => destruct H
         end; subst.

Ltac hframe_tac :=
  solve [ repeat first [ eassumption
                       | apply hframe_refl
                       | apply hframe_alloc
                       | (apply hframe_pushLoc; eassumption)
                       | (eapply hframe_trans; [eassumption|]) ] ].

Ltac post_tac :=
  unfold post, stable, heap_frame; simpl;
  repeat match goal with |- _ /\ _ => split end;
  try reflexivity; try congruence; try hframe_tac; eauto.

Lemma py_add_num a b v : py_add (VNum a) (VNum b) = Ok v -> exists n, v = VNum n.
Proof. unfold py_add, rmap, rbind. destruct (num_add a b); intros [= <-]; eauto. Qed.
Lemma py_sub_num a b v : py_sub (VNum a) (VNum b) = Ok v -> exists n, v = VNum n.
Proof. unfold py_sub, rmap, rbind. destruct (num_sub a b); intros [= <-]; eauto. Qed.
Lemma py_mul_num a b v : py_mul (VNum a) (VNum b) = Ok v -> exists n, v = VNum n.
Proof. unfold py_mul, rmap, rbind. destruct (num_mul a b); intros [= <-]; eauto. Qed.

Ltac marker H := 
  match type of H with
  | drive ?n _ = _ => destruct n; [discriminate H|]; step H
  end.

Ltac sub IH H :=
  let Hs := fresh "Hsub" in subrun H Hs; use_post IH Hs.

(** Evaluating a term to the end respects the stack discipline. *)
Lemma drive_post n : forall t l h en st vs s',
  drive n (mkState l h en st vs [VTerm t]) = Some (Ok s') ->
  post t (mkState l h en st vs []) s'.
Proof.
  induction n as [n IH] using lt_wf_ind. intros t l h en st vs s' H.
  destruct n as [|n]; [discriminate|].
  destruct t as [e|c|d].
  - destruct e as [f|e1 e2|e1 e2|e1 e2|[e1 e2|e1]|x|e1|e1]; step H.
    + finish H. post_tac.
    + sub IH H. sub IH H.
      marker H. stuck H. finish H.
      match goal with E : py_add _ _ = _ |- _ => apply py_add_num in E as [? ->] end.
      post_tac.
    + sub IH H. sub IH H.
      marker H. stuck H. finish H.
      match goal with E : py_sub _ _ = _ |- _ => apply py_sub_num in E as [? ->] end.
      post_tac.
    + sub IH H. sub IH H.
      marker H. stuck H. finish H.
      match goal with E : py_mul _ _ = _ |- _ => apply py_mul_num in E as [? ->] end.
      post_tac.
    + sub IH H. sub IH H.
      marker H. stuck H. finish H. post_tac.
    + sub IH H.
      marker H. stuck H. finish H. post_tac.
    + repeat stuck H. finish H. post_tac.
    + sub IH H.
      marker H. repeat stuck H. 
      all: finish H. all: post_tac.
    + discriminate H.
  - destruct c as [x e|be c|c1 c2|d c]; step H.
    + sub IH H.
      marker H. repeat stuck H. finish H. post_tac.
    + sub IH H.
      marker H. stuck H. stuck H.
      * sub IH H. use_post IH H. post_tac.
      * finish H. post_tac.
    + sub IH H. use_post IH H. post_tac.
    + stuck H. sub IH H.
      marker H. sub IH H.
      marker H. repeat stuck H. finish H.
      post_tac.
      eapply hframe_relocate; [|reflexivity].
      eapply hframe_trans; [apply hframe_alloc|].
      eapply hframe_trans; eassumption.
  - destruct d as [x e|d1 d2]; step H.
    + sub IH H. marker H. finish H. post_tac.
    + sub IH H. sub IH H. marker H. finish H. post_tac.
Qed.

(** ** Small facts used by the statements below *)

Lemma num_eq_refl (l : num) : num_is_nan l = false -> num_eq l l = true.
Proof.
  destruct l as [f|b|z]; simpl.
  - now intros ->%negb_false_iff.
  - intros _. apply Z.eqb_refl.
  - intros _. apply Z.eqb_refl.
Qed.

Lemma pops_step p n s :
  pops p (S n) s =
  match eval s with
  | Ok s' =>
      match cnt s with
      | c :: _ => if p c then S (pops p n s') else pops p n s'
      | [] => pops p n s'
      end
  | Err _ => 0
  end.
Proof. reflexivity. Qed.

Lemma py_max_In k ks : In (py_max k ks) (k :: ks).
Proof.
  revert k. induction ks as [|x ks IH]; intros k; simpl; [auto|].
  destruct (IH (if num_gt x k then x else k)) as [E|HIn]; [|auto].
  destruct (num_gt x k); auto.
Qed.

(** Evaluate the innermost pending test of the goal when it is closed. *)
Ltac compute_test :=
  match goal with
  | |- context [match ?x with _ => _ end] =>
      lazymatch x with
      | context [match _ with _ => _ end] => fail
      | _ => let r := eval compute in x in progress change x with r
      end
  end; cbv beta iota.

(** ** The order of floats *)

Lemma Pos_compare_cont_Eq m1 m2 :
  PosDef.Pos.compare_cont Datatypes.Eq m1 m2 = (m1 ?= m2)%positive.
Proof. reflexivity. Qed.

Ltac order_cases :=
  repeat match goal with
         | H : context [(?a ?= ?b)%Z] |- _ =>
             destruct (Z.compare_spec a b); simpl in H; try discriminate H
         | H : context [(?a ?= ?b)%positive] |- _ =>
             destruct (Pos.compare_spec a b); simpl in H; try discriminate H
         | |- context [(?a ?= ?b)%Z] =>
             destruct (Z.compare_spec a b); simpl
         | |- context [(?a ?= ?b)%positive] =>
             destruct (Pos.compare_spec a b); simpl
         end;
  subst; try reflexivity; try congruence; try lia.

(** [a < b] and [b <= c] give [a < c]. *)
Lemma SFcompare_lt_le a b c :
  SFcompare a b = Some Lt ->
  SFcompare c b <> Some Lt ->
  c <> S754_nan ->
  SFcompare a c = Some Lt.
Proof.
  intros H1 H2 H3.
  assert (forall x : comparison, Some x <> Some Lt -> x <> Lt) as Hs
    by (intros x Hx ->; now apply Hx).
  destruct a as [[]|[]| |[] ma ea], b as [[]|[]| |[] mb eb];
    try discriminate H1;
    destruct c as [[]|[]| |[] mc ec];
    try reflexivity; try congruence; try (exfalso; apply H2; reflexivity);
    simpl in *; rewrite ?Pos_compare_cont_Eq in *;
    injection H1 as H1; apply Hs in H2; clear Hs H3; f_equal;
    order_cases.
Qed.

Lemma SFcompare_lt_asym a b :
  SFcompare a b = Some Lt -> SFcompare b a <> Some Lt.
Proof.
  intros H1 H2.
  destruct a as [[]|[]| |[] ma ea], b as [[]|[]| |[] mb eb];
    try discriminate H1; try discriminate H2;
    simpl in *; rewrite ?Pos_compare_cont_Eq in *;
    injection H1 as H1; injection H2 as H2; order_cases.
Qed.

Lemma float_ltb_lt_le (a b c : float) :
  PrimFloat.ltb a b = true -> PrimFloat.ltb c b = false ->
  PrimFloat.eqb c c = true -> PrimFloat.ltb a c = true.
Proof.
  rewrite !FloatAxioms.ltb_spec, FloatAxioms.eqb_spec. unfold SFltb, SFeqb.
  intros H1 H2 H3.
  assert (SFcompare (Prim2SF a) (Prim2SF c) = Some Lt) as ->; [|reflexivity].
  apply (SFcompare_lt_le _ (Prim2SF b)).
  - destruct (SFcompare (Prim2SF a) (Prim2SF b)) as [[]|]; congruence.
  - destruct (SFcompare (Prim2SF c) (Prim2SF b)) as [[]|]; congruence.
  - intros E. rewrite E in H3. discriminate H3.
Qed.

Lemma float_ltb_asym (a b : float) :
  PrimFloat.ltb a b = true -> PrimFloat.ltb b a = false.
Proof.
  rewrite !FloatAxioms.ltb_spec. unfold SFltb. intros H.
  pose proof (SFcompare_lt_asym (Prim2SF a) (Prim2SF b)) as Ha.
  destruct (SFcompare (Prim2SF a) (Prim2SF b)) as [[]|]; try discriminate H.
  destruct (SFcompare (Prim2SF b) (Prim2SF a)) as [[]|]; try reflexivity.
  exfalso. now apply Ha.
Qed.

Lemma float_ltb_irrefl (a : float) : PrimFloat.ltb a a = false.
Proof.
  destruct (PrimFloat.ltb a a) eqn:E; [|reflexivity].
  pose proof (float_ltb_asym a a E). congruence.
Qed.

(** [max] of float keys none of which is a NaN is a key no key exceeds. *)
Lemma py_max_greatest ks : forall k,
  forallb float_key (k :: ks) = true ->
  float_key (py_max k ks) = true /\
  forall x, In x (k :: ks) -> num_gt x (py_max k ks) = false.
Proof.
  induction ks as [|y ks IH]; intros k Hk.
  - simpl in *. apply andb_true_iff in Hk as [Hk _]. split; [exact Hk|].
    intros x [<-|[]]. destruct k as [f| |]; try discriminate Hk.
    apply float_ltb_irrefl.
  - simpl in Hk. apply andb_true_iff in Hk as [Hk Hr].
    apply andb_true_iff in Hr as [Hy Hr]. simpl py_max.
    assert (forallb float_key ((if num_gt y k then y else k) :: ks) = true)
      as Hk'.
    { simpl. rewrite Hr. destruct (num_gt y k); now rewrite ?Hy, ?Hk. }
    destruct (IH _ Hk') as [Hm Hmax]. split; [exact Hm|].
    set (m := py_max (if num_gt y k then y else k) ks) in *.
    assert (forall x, In x ks -> num_gt x m = false) as Hks
      by (intros x Hx; apply Hmax; now right).
    assert (num_gt (if num_gt y k then y else k) m = false) as Hhead
      by (apply Hmax; now left).
    clearbody m.
    destruct k as [fk| |]; try discriminate Hk.
    destruct y as [fy| |]; try discriminate Hy.
    destruct m as [fm| |]; try discriminate Hm.
    destruct (num_gt (NFloat fy) (NFloat fk)) eqn:E; unfold num_gt in *;
      (intros x [<-|[<-|Hx]]; [| |now apply Hks]).
    + (* [y > k]: the first key *)
      destruct (PrimFloat.ltb fm fk) eqn:F; [|reflexivity].
      pose proof (float_ltb_lt_le fm fk fy F (float_ltb_asym _ _ E) Hy).
      congruence.
    + exact Hhead.
    + exact Hhead.
    + (* not [y > k]: the second key *)
      destruct (PrimFloat.ltb fm fy) eqn:F; [|reflexivity].
      pose proof (float_ltb_lt_le fm fy fk F E Hk). congruence.
Qed.

(** ** No step raises [AssertionError] *)

Section Quiet.
Lemma quiet_ret {A} (a : A) : quiet (ret a).
Proof. intros s. discriminate. Qed.
Lemma quiet_raise {A} (e : error) : e <> AssertionError -> quiet (@raise A e).
Proof. intros He s. unfold raise. congruence. Qed.
Lemma quiet_lift {A} (r : result A) : r <> Err AssertionError -> quiet (lift r).
Proof. intros Hr s. unfold lift. destruct r; congruence. Qed.
Lemma quiet_bind {A B} (m : M A) (k : A -> M B) :
  quiet m -> (forall a, quiet (k a)) -> quiet (bind m k).
Proof.
  intros Hm Hk s. unfold bind. specialize (Hm s).
  destruct (m s) as [[a s']|e]; [apply Hk | congruence].
Qed.
Lemma quiet_get {A} (f : state -> A) : quiet (get f).
Proof. intros s. discriminate. Qed.
Lemma quiet_modify f : quiet (modify f).
Proof. intros s. discriminate. Qed.
Lemma quiet_pushVal v : quiet (pushVal v).
Proof. apply quiet_modify. Qed.
Lemma quiet_pushCnt v : quiet (pushCnt v).
Proof. apply quiet_modify. Qed.
Lemma quiet_popVal : quiet popVal.
Proof. intros s. unfold popVal. destruct (val s); discriminate. Qed.
Lemma quiet_popCnt : quiet popCnt.
Proof. intros s. unfold popCnt. destruct (cnt s); discriminate. Qed.
Lemma quiet_getLoc i : quiet (getLoc i).
Proof. intros s. unfold getLoc. repeat case_match; discriminate. Qed.
Lemma quiet_updateStore l v : quiet (updateStore l v).
Proof. intros s. unfold updateStore. repeat case_match; discriminate. Qed.
Lemma quiet_pushLoc l : quiet (pushLoc l).
Proof. intros s. unfold pushLoc. repeat case_match; discriminate. Qed.

Lemma float_of_Z_quiet z : float_of_Z z <> Err AssertionError.
Proof. unfold float_of_Z. case_match; discriminate. Qed.
Lemma num_float_quiet n : num_float n <> Err AssertionError.
Proof. destruct n; simpl; try discriminate; apply float_of_Z_quiet. Qed.
Lemma num_arith_quiet fz ff a b : num_arith fz ff a b <> Err AssertionError.
Proof.
  unfold num_arith, rbind.
  pose proof (num_float_quiet a). pose proof (num_float_quiet b).
  repeat case_match; congruence.
Qed.
Lemma quiet_newLoc : quiet newLoc.
Proof.
  intros s. unfold newLoc. destruct (map fst (sto s)); [discriminate|].
  pose proof (num_arith_quiet Z.add PrimFloat.add (py_max n l) (NInt 1)) as H.
  unfold num_add. destruct (num_arith _ _ _ _); congruence.
Qed.
Lemma py_add_quiet v1 v2 : py_add v1 v2 <> Err AssertionError.
Proof.
  unfold py_add, rmap, rbind, num_add. destruct v1, v2; try discriminate.
  pose proof (num_arith_quiet Z.add PrimFloat.add n n0).
  destruct (num_arith _ _ _ _); congruence.
Qed.
Lemma py_sub_quiet v1 v2 : py_sub v1 v2 <> Err AssertionError.
Proof.
  unfold py_sub, rmap, rbind, num_sub. destruct v1, v2; try discriminate.
  pose proof (num_arith_quiet Z.sub PrimFloat.sub n n0).
  destruct (num_arith _ _ _ _); congruence.
Qed.
Lemma py_mul_quiet v1 v2 : py_mul v1 v2 <> Err AssertionError.
Proof.
  unfold py_mul, rmap, rbind, num_mul.
  destruct v1, v2; try (case_match; discriminate).
  pose proof (num_arith_quiet Z.mul PrimFloat.mul n n0).
  destruct (num_arith _ _ _ _); congruence.
Qed.
Lemma py_eq_quiet v1 v2 : py_eq v1 v2 <> Err AssertionError.
Proof. unfold py_eq. destruct v1, v2; discriminate. Qed.
Lemma py_truth_quiet h v : py_truth h v <> Err AssertionError.
Proof. unfold py_truth. repeat case_match; discriminate. Qed.
(** The [Loop] that [__evalLoop] rebuilds has the operands of a [Loop]. *)
Lemma Loop_init_quiet (be : BoolExp) (bl : Cmd) :
  Loop_init (VTerm be) (VTerm bl) <> Err AssertionError.
Proof. discriminate. Qed.

Create HintDb quiet.
Hint Resolve quiet_ret quiet_lift quiet_get quiet_modify quiet_pushVal
  quiet_pushCnt quiet_popVal quiet_popCnt quiet_getLoc quiet_updateStore
  quiet_pushLoc quiet_newLoc py_add_quiet py_sub_quiet py_mul_quiet
  py_eq_quiet py_truth_quiet Loop_init_quiet : quiet.

Ltac quiet_tac :=
  repeat (intros;
          first [ solve [auto with quiet]
                | (apply quiet_raise; discriminate)
                | apply quiet_bind
                | progress case_match ]).

Lemma quiet_ExpAut_dispatch e : quiet (ExpAut_dispatch e).
Proof.
  unfold ExpAut_dispatch, evalSum, evalSumKW, evalSub, evalSubKW, evalMul,
    evalMulKW, evalNum, evalEq, evalEqKW, evalNot, evalNotKW.
  quiet_tac.
Qed.

Lemma quiet_ExpAut_eval : quiet ExpAut_eval.
Proof.
  unfold ExpAut_eval. apply quiet_bind; [apply quiet_popCnt|].
  apply quiet_ExpAut_dispatch.
Qed.
Hint Resolve quiet_ExpAut_eval : quiet.

Lemma quiet_CmdAut_dispatch c : quiet (CmdAut_dispatch c).
Proof.
  unfold CmdAut_dispatch, evalAssign, evalAssignKW, evalId, evalLoop,
    evalLoopKW, evalCSeq.
  quiet_tac.
Qed.

Lemma quiet_CmdAut_eval : quiet CmdAut_eval.
Proof.
  unfold CmdAut_eval. apply quiet_bind; [apply quiet_popCnt|].
  apply quiet_CmdAut_dispatch.
Qed.
Hint Resolve quiet_CmdAut_eval : quiet.

Lemma quiet_DecAut_dispatch d : quiet (DecAut_dispatch d).
Proof.
  unfold DecAut_dispatch, evalRef, evalRefKW, evalBind, evalBindKW,
    evalDSeq, evalDSeqKW, evalBlk, evalBlkDecKW, evalBlkCmdKW.
  quiet_tac.
Qed.

Lemma quiet_DecAut_eval : quiet DecAut_eval.
Proof.
  unfold DecAut_eval. apply quiet_bind; [apply quiet_popCnt|].
  apply quiet_DecAut_dispatch.
Qed.
End Quiet.


(** ** Expressions without identifiers or references *)

Lemma pure_entry_step l h en st vs c C s' :
  pure_entry c = true ->
  eval (mkState l h en st vs (c :: C)) = Ok s' ->
  env s' = en /\ sto s' = st /\ locs s' = l /\ heap s' = h /\
  exists K, cnt s' = K ++ C /\ forallb pure_entry K = true.
Proof.
  intros Hc H.
  destruct c as [?|k|[e| |]| | |]; try discriminate Hc.
  - (* a marker *)
    simpl in Hc. rewrite !orb_true_iff in Hc.
    destruct Hc as [[[[E|E]|E]|E]|E]; apply String.eqb_eq in E; subst k;
      eval_in H; repeat stuck H; injection H as <-;
      repeat split; exists []; split; reflexivity.
  - (* an expression *)
    destruct e as [f|e1 e2|e1 e2|e1 e2|[e1 e2|e1]| | |]; try discriminate Hc;
      simpl in Hc; try apply andb_true_iff in Hc as [H1 H2];
      eval_in H; injection H as <-; repeat split.
    + exists []. split; reflexivity.
    + exists [VTerm e2; VTerm e1; VStr ExpKW.SUM]. simpl. rewrite H1, H2.
      split; reflexivity.
    + exists [VTerm e2; VTerm e1; VStr ExpKW.SUB]. simpl. rewrite H1, H2.
      split; reflexivity.
    + exists [VTerm e2; VTerm e1; VStr ExpKW.MUL]. simpl. rewrite H1, H2.
      split; reflexivity.
    + exists [VTerm e2; VTerm e1; VStr ExpKW.EQ]. simpl. rewrite H1, H2.
      split; reflexivity.
    + exists [VTerm e1; VStr ExpKW.NOT]. simpl. rewrite Hc.
      split; reflexivity.
Qed.

Lemma drive_pure n : forall s s',
  forallb pure_entry (cnt s) = true ->
  drive n s = Some (Ok s') ->
  env s' = env s /\ sto s' = sto s /\ locs s' = locs s /\ heap s' = heap s.
Proof.
  induction n as [|n IH]; intros s s' Hp H.
  - simpl in H. destruct (emptyCnt s); [|discriminate].
    injection H as <-. repeat split.
  - destruct (emptyCnt s) eqn:E.
    + rewrite drive_done in H by exact E. injection H as <-. repeat split.
    + rewrite drive_step in H by exact E.
      destruct s as [l h en st vs [|c C]]; [discriminate E|].
      simpl in Hp. apply andb_true_iff in Hp as [Hc HC].
      destruct (eval _) as [s1|e] eqn:Ev; [|discriminate].
      apply pure_entry_step in Ev as (E1 & E2 & E3 & E4 & K & EK & HK);
        [|exact Hc].
      apply IH in H as (F1 & F2 & F3 & F4).
      * simpl. repeat split; congruence.
      * rewrite EK, forallb_app, HK, HC. reflexivity.
Qed.


(** ** Expressions without identifiers or references always finish *)

Scheme Exp_mutind := Induction for Exp Sort Prop
  with BoolExp_mutind := Induction for BoolExp Sort Prop.

(** A marker of the expression layer alone on the control stack. *)
Lemma marker_finishes k l h en st vs :
  pure_entry (VStr k) = true ->
  exists r, drive 1 (mkState l h en st vs [VStr k]) = Some r.
Proof.
  intros Hk. simpl in Hk. rewrite !orb_true_iff in Hk.
  rewrite drive_step by reflexivity.
  destruct Hk as [[[[E|E]|E]|E]|E]; apply String.eqb_eq in E; subst k;
    eval_goal;
    repeat match goal with
           | |- context [match ?x with _ => _ end] =>
               lazymatch x with
               | context [match _ with _ => _ end] => fail
               | _ => destruct x
               end
           end; eexists; reflexivity.
Qed.

(** Operands first, then the marker. *)
Lemma operand_then l h en st vs (e : Exp) C :
  (forall l h en st vs, exists n r,
      drive n (mkState l h en st vs [VTerm e]) = Some r) ->
  (forall l h en st vs, exists n r,
      drive n (mkState l h en st vs C) = Some r) ->
  exists n r, drive n (mkState l h en st vs (VTerm e :: C)) = Some r.
Proof.
  intros He HC. destruct (He l h en st vs) as (n1 & [s1|er] & H1).
  - pose proof (drive_Ok_empty _ _ _ H1) as Hc.
    destruct s1 as [l1 h1 en1 st1 vs1 c1]. simpl in Hc. subst c1.
    destruct (HC l1 h1 en1 st1 vs1) as (n2 & r & H2).
    exists (n1 + n2), r. eapply drive_cons_Ok; [exact H1 | exact H2].
  - exists n1, (Err er). now apply drive_cons_Err.
Qed.

Lemma pure_finishes (e : Exp) :
  pure e = true ->
  forall l h en st vs, exists n r,
    drive n (mkState l h en st vs [VTerm e]) = Some r.
Proof.
  revert e.
  apply (Exp_mutind
    (fun e => pure e = true -> forall l h en st vs, exists n r,
                drive n (mkState l h en st vs [VTerm e]) = Some r)
    (fun b => pure_bool b = true -> forall l h en st vs, exists n r,
                drive n (mkState l h en st vs [VTerm (BExp b)]) = Some r));
    try discriminate.
  - (* Num *) intros f _ l h en st vs. exists 1. eexists. reflexivity.
  - (* Sum *) intros e1 IH1 e2 IH2 Hp l h en st vs.
    apply andb_true_iff in Hp as [P1 P2].
    destruct (operand_then l h en st vs e2 [VTerm e1; VStr ExpKW.SUM])
      as (n & r & H); [auto| |].
    { intros. apply operand_then; [auto|]. intros. exists 1.
      now apply marker_finishes. }
    exists (S n), r. rewrite drive_step by reflexivity. exact H.
  - (* Sub *) intros e1 IH1 e2 IH2 Hp l h en st vs.
    apply andb_true_iff in Hp as [P1 P2].
    destruct (operand_then l h en st vs e2 [VTerm e1; VStr ExpKW.SUB])
      as (n & r & H); [auto| |].
    { intros. apply operand_then; [auto|]. intros. exists 1.
      now apply marker_finishes. }
    exists (S n), r. rewrite drive_step by reflexivity. exact H.
  - (* Mul *) intros e1 IH1 e2 IH2 Hp l h en st vs.
    apply andb_true_iff in Hp as [P1 P2].
    destruct (operand_then l h en st vs e2 [VTerm e1; VStr ExpKW.MUL])
      as (n & r & H); [auto| |].
    { intros. apply operand_then; [auto|]. intros. exists 1.
      now apply marker_finishes. }
    exists (S n), r. rewrite drive_step by reflexivity. exact H.
  - (* BExp *) auto.
  - (* Eq *) intros e1 IH1 e2 IH2 Hp l h en st vs.
    apply andb_true_iff in Hp as [P1 P2].
    destruct (operand_then l h en st vs e2 [VTerm e1; VStr ExpKW.EQ])
      as (n & r & H); [auto| |].
    { intros. apply operand_then; [auto|]. intros. exists 1.
      now apply marker_finishes. }
    exists (S n), r. rewrite drive_step by reflexivity. exact H.
  - (* Not *) intros e1 IH1 Hp l h en st vs.
    destruct (operand_then l h en st vs e1 [VStr ExpKW.NOT])
      as (n & r & H); [auto| |].
    { intros. exists 1. now apply marker_finishes. }
    exists (S n), r. rewrite drive_step by reflexivity. exact H.
Qed.

(** ** The locations a declaration allocates *)

Lemma allocated_one s s1 :
  eval s = Ok s1 ->
  allocated 1 s
  = match cnt s, newLoc s with
    | VStr k :: _, Ok (a, _) => if String.eqb k DecExpKW.REF then [a] else []
    | _, _ => []
    end.
Proof. intros H. unfold allocated. rewrite H. reflexivity. Qed.

Lemma allocated_step n s s1 :
  eval s = Ok s1 -> allocated (S n) s = allocated 1 s ++ allocated n s1.
Proof.
  intros H. rewrite (allocated_one s s1 H).
  change (allocated (S n) s)
    with (match eval s with
          | Ok s' =>
              match cnt s, newLoc s with
              | VStr k :: _, Ok (l, _) =>
                  if String.eqb k DecExpKW.REF then l :: allocated n s'
                  else allocated n s'
              | _, _ => allocated n s'
              end
          | Err _ => []
          end).
  rewrite H.
  destruct (cnt s) as [|[?|k|?|?|?|?] ?]; try reflexivity.
  destruct (newLoc s) as [[a ?]|]; [|reflexivity].
  destruct (String.eqb k DecExpKW.REF); reflexivity.
Qed.

Lemma allocated_stop n s : cnt s = [] -> allocated n s = [].
Proof.
  intros H. destruct n; [reflexivity|].
  destruct s as [l h en st vs c]. simpl in H. subst c. reflexivity.
Qed.

(** A step on an entry of a declaration leaves the ledger object in
    place; the [#REF] step appends the location it hands out, which is no
    NaN, and no other step changes a list. *)
Lemma dec_entry_step l h en st vs c C s1 x :
  dec_entry c = true ->
  h !! l = Some x ->
  eval (mkState l h en st vs (c :: C)) = Ok s1 ->
  locs s1 = l /\
  (exists K, cnt s1 = K ++ C /\ forallb dec_entry K = true) /\
  heap s1 !! l = Some (x ++ allocated 1 (mkState l h en st vs (c :: C))) /\
  Forall (fun a => num_is_nan a = false)
         (allocated 1 (mkState l h en st vs (c :: C))).
Proof.
  intros Hc Hx H.
  rewrite (allocated_one _ _ H). simpl cnt.
  destruct c as [?|k|[e|?|d]|?|?|?]; try discriminate Hc.
  - (* a marker *)
    simpl in Hc. rewrite !orb_true_iff in Hc.
    destruct Hc as [[[[[[[E|E]|E]|E]|E]|E]|E]|E];
      apply String.eqb_eq in E; subst k.
    1-5,7-8:
      (replace (String.eqb _ DecExpKW.REF) with false by reflexivity;
       assert (forall r : result (num * state),
                 match r with Ok (a, _) => @nil num | Err _ => [] end = [])
         as Hn by (intros [[? ?]|?]; reflexivity);
       rewrite Hn, app_nil_r;
       eval_in H; repeat stuck H; injection H as <-; simpl;
       (split; [reflexivity|]);
       (split; [exists []; split; reflexivity|]);
       (split; [assumption | constructor])).
    (* [#REF] *)
    replace (String.eqb DecExpKW.REF DecExpKW.REF) with true by reflexivity.
    cbv [eval exec DecAut_eval bind popCnt cnt set_cnt locs heap env sto val]
      in H.
    change (DecAut_dispatch (VStr DecExpKW.REF)) with evalRefKW in H.
    unfold evalRefKW, bind in H.
    destruct vs as [|v vs]; [discriminate H|].
    cbv [popVal val set_val locs heap env sto cnt] in H.
    assert (newLoc (mkState l h en st vs C)
            = match newLoc (mkState l h en st (v :: vs)
                              (VStr DecExpKW.REF :: C)) with
              | Ok (a, _) => Ok (a, mkState l h en st vs C)
              | Err e => Err e
              end) as HN.
    { unfold newLoc. simpl. destruct (map fst st); [reflexivity|].
      destruct (num_add _ _); reflexivity. }
    rewrite HN in H. clear HN.
    destruct (newLoc (mkState l h en st (v :: vs) (VStr DecExpKW.REF :: C)))
      as [[a ?]|?]; [|discriminate H].
    unfold updateStore in H.
    destruct v as [nv|?|?|?|?|?]; try discriminate H.
    destruct (num_is_nan a) eqn:Na; [discriminate H|].
    cbv [pushLoc pushVal modify set_sto set_heap set_val
         locs heap env sto val cnt] in H.
    rewrite Hx in H. injection H as <-. simpl.
    split; [reflexivity|].
    split; [exists []; split; reflexivity|].
    split.
    + apply list_lookup_insert_eq. eapply lookup_lt_Some; eassumption.
    + constructor; [exact Na | constructor].
  - (* an expression *)
    destruct e as [f|e1 e2|e1 e2|e1 e2|[e1 e2|e1]|y|e1|e1];
      eval_in H; repeat stuck H; try discriminate H;
      injection H as <-; rewrite app_nil_r; simpl;
      (split; [reflexivity|]); (split; [|split; [assumption|constructor]]).
    + exists []. split; reflexivity.
    + exists [VTerm e2; VTerm e1; VStr ExpKW.SUM]. split; reflexivity.
    + exists [VTerm e2; VTerm e1; VStr ExpKW.SUB]. split; reflexivity.
    + exists [VTerm e2; VTerm e1; VStr ExpKW.MUL]. split; reflexivity.
    + exists [VTerm e2; VTerm e1; VStr ExpKW.EQ]. split; reflexivity.
    + exists [VTerm e1; VStr ExpKW.NOT]. split; reflexivity.
    + exists []. split; reflexivity.
    + exists [VTerm e1; VStr DecExpKW.REF]. split; reflexivity.
  - (* a declaration *)
    destruct d as [y e|d1 d2];
      eval_in H; injection H as <-; rewrite app_nil_r; simpl;
      (split; [reflexivity|]); (split; [|split; [assumption|constructor]]).
    + exists [VTerm e; VStr DecKW.BIND]. split; reflexivity.
    + exists [VTerm d1; VTerm d2; VStr DecKW.DSEQ]. split; reflexivity.
Qed.

(** While a declaration is evaluated the ledger stays the same list
    object, and it grows by exactly the locations the [#REF] steps hand
    out, in their order; none of them is a NaN. *)
Lemma drive_allocated n : forall s s' x,
  forallb dec_entry (cnt s) = true ->
  ledger s = Some x ->
  drive n s = Some (Ok s') ->
  locs s' = locs s /\
  ledger s' = Some (x ++ allocated n s) /\
  Forall (fun a => num_is_nan a = false) (allocated n s).
Proof.
  induction n as [|n IH]; intros s s' x Hp Hx H.
  - simpl in H. destruct (emptyCnt s); [|discriminate].
    injection H as <-. simpl. rewrite app_nil_r. repeat split; auto.
  - destruct (emptyCnt s) eqn:E.
    + rewrite drive_done in H by exact E. injection H as <-.
      rewrite allocated_stop by (now apply emptyCnt_nil).
      rewrite app_nil_r. repeat split; auto.
    + rewrite drive_step in H by exact E.
      destruct (eval s) as [s1|e] eqn:Ev; [|discriminate].
      rewrite (allocated_step n s s1 Ev).
      destruct s as [l h en st vs [|c C]]; [discriminate E|].
      simpl in Hp. apply andb_true_iff in Hp as [Hc HC].
      unfold ledger in Hx. simpl in Hx.
      destruct (dec_entry_step _ _ _ _ _ _ _ _ _ Hc Hx Ev)
        as (El & (K & EK & HK) & Eh & Fa).
      destruct (IH s1 s' (x ++ allocated 1 (mkState l h en st vs (c :: C))))
        as (F1 & F2 & F3).
      * rewrite EK, forallb_app, HK, HC. reflexivity.
      * unfold ledger. now rewrite El.
      * exact H.
      * simpl. split; [congruence|].
        split; [now rewrite F2, <- app_assoc|].
        apply Forall_app. split; assumption.
Qed.

(** ** The tests of the branches exclude one another *)












(** * The claims *)


(** C2.  Whenever the evaluation of [Blk(d, c)] runs to its end, that is
    through the [#BLKCMD] step: the environment is the one the block was
    entered with; the ledger holds what it held on entry ([snapshot]);
    the value stack is the one on entry; the store is the store [#BLKCMD]
    found, without the entries whose location is in the list [#BLKCMD]
    popped.  That list is the ledger object of the entry, which by then
    holds [snapshot], the locations [added] while the declarations were
    evaluated and those [grown] during the body; and [added] is exactly
    the list of the locations the [#REF] steps of the declarations handed
    out.  Hence no location allocated for the declarations is a key of
    the final store, and a name the restored environment maps to one
    cannot be read any more: a step on [Id(x)] raises [KeyError].  A block
    with other entries [C] below it on the control stack is evaluated the
    same way and leaves [C]. *)
Theorem Blk_scope (d : Dec) (c : Cmd) (n : nat) (l : nat)
    (h : list (list num)) (en : Env) (st : Sto) (vs : ValueStack)
    (s' : state) :
  drive n (mkState l h en st vs [VTerm (Blk d c)]) = Some (Ok s') ->
  exists snapshot added grown m hd std lb hb stb,
    (* the ledger on entry *)
    h !! l = Some snapshot /\
    (* the declarations, evaluated after the first step *)
    drive n (mkState l (h ++ [snapshot]) en st
               (VTerm c :: VList (length h) :: vs) [VTerm d])
    = Some (Ok (mkState l hd en std
                  (VDict m :: VTerm c :: VList (length h) :: vs) [])) /\
    hd !! l = Some (snapshot ++ added) /\
    (* what their [#REF] steps allocated *)
    added = allocated n (mkState l (h ++ [snapshot]) en st
                           (VTerm c :: VList (length h) :: vs) [VTerm d]) /\
    (* the body, evaluated after the [#BLKDEC] step *)
    drive n (mkState l hd (env_update en m) std
               (VEnv en :: VList l :: VList (length h) :: vs) [VTerm c])
    = Some (Ok (mkState lb hb (env_update en m) stb
                  (VEnv en :: VList l :: VList (length h) :: vs) [])) /\
    hb !! l = Some (snapshot ++ added ++ grown) /\
    (* the [#BLKCMD] step *)
    eval (mkState lb hb (env_update en m) stb
            (VEnv en :: VList l :: VList (length h) :: vs)
            [VStr DecCmdKW.BLKCMD]) = Ok s' /\
    env s' = en /\
    ledger s' = Some snapshot /\
    val s' = vs /\
    sto s' = sto_remove (snapshot ++ added ++ grown) stb /\
    (forall k, In k (snapshot ++ added ++ grown) ->
               sto_get (sto s') k = None) /\
    (forall x a C, env_get (env s') x = Some a -> In a added ->
                   sto_get (sto s') a = None /\
                   eval (set_cnt (VTerm (Id x) :: C) s') = Err KeyError) /\
    (forall C k r,
       drive k (set_cnt C s') = Some r ->
       drive (n + k) (mkState l h en st vs (VTerm (Blk d c) :: C)) = Some r).
Proof.
  intros H. pose proof H as Hall. destruct n as [|n]; [discriminate|].
  step H. stuck H. rename l0 into snapshot.
  assert (l < length h) as Hlt by (eapply lookup_lt_Some; eassumption).
  subrun H Hd. pose proof Hd as Pd. apply drive_post in Pd.
  destruct Pd as [[Een (_ & _ & Hoth1 & Hcur1)] [El [m Ev]]].
  simpl in Een, Hoth1, Hcur1, El, Ev. subst en0 l0 vs0.
  destruct (Hcur1 snapshot) as [added Hadd].
  { rewrite lookup_app_l; assumption. }
  assert (h0 !! length h = Some snapshot) as Hsnap1.
  { apply Hoth1; [|lia]. rewrite lookup_app_r by lia.
    now rewrite Nat.sub_diag. }
  marker H. subrun H Hc. pose proof Hc as Pc. apply drive_post in Pc.
  destruct Pc as [[Een (_ & _ & Hoth2 & Hcur2)] Hval].
  simpl in Een, Hoth2, Hcur2, Hval. subst en0 vs0.
  destruct (Hcur2 _ Hadd) as [grown Hgrown].
  rewrite <- app_assoc in Hgrown.
  assert (h1 !! length h = Some snapshot) as Hsnap2.
  { apply Hoth2; [exact Hsnap1 | lia]. }
  destruct n as [|n]; [discriminate|]. step H.
  rewrite Hgrown in H. cbv beta iota in H. stuck H. finish H.
  (* what the ledger gained is what the [#REF] steps handed out *)
  pose proof (drive_mono _ (S (S (S n))) _ _ Hd ltac:(lia)) as Hd'.
  assert (added
          = allocated (S (S (S n)))
              (mkState l (h ++ [snapshot]) en st
                 (VTerm c :: VList (length h) :: vs) [VTerm d]) /\
          Forall (fun a => num_is_nan a = false) added) as [Eadd Hnan].
  { assert (ledger (mkState l (h ++ [snapshot]) en st
                      (VTerm c :: VList (length h) :: vs) [VTerm d])
            = Some snapshot) as Hled.
    { unfold ledger. cbv [locs heap]. rewrite lookup_app_l; assumption. }
    destruct (drive_allocated (S (S (S n)))
                (mkState l (h ++ [snapshot]) en st
                   (VTerm c :: VList (length h) :: vs) [VTerm d])
                _ snapshot eq_refl Hled Hd')
      as (_ & Ha & Hn).
    unfold ledger in Ha. cbv [locs heap] in Ha. rewrite Hadd in Ha.
    injection Ha as Ha. apply app_inv_head in Ha.
    split; [exact Ha | rewrite Ha; exact Hn]. }
  exists snapshot, added, grown, m, h0, st0, l0, h1, st1.
  assert (forall k, In k (snapshot ++ added ++ grown) ->
            sto_get (sto_remove (snapshot ++ added ++ grown) st1) k = None)
    as Hgone by (intros k Hk; now apply sto_get_remove).
  repeat match goal with |- _ /\ _ => split end;
    try reflexivity; try assumption.
  - apply (drive_mono (S n)); [exact Hc | lia].
  - eval_goal. rewrite Hgrown. cbv beta iota.
    match goal with E : existsb _ _ = false |- _ => rewrite E end.
    reflexivity.
  - intros x a C Hx Ha.
    assert (In a (snapshot ++ added ++ grown)) as Hin
      by (rewrite !in_app_iff; tauto).
    split; [now apply Hgone|].
    cbv [env] in Hx. unfold set_cnt. cbv [locs heap env sto val cnt].
    eval_goal. rewrite Hx.
    rewrite (proj1 (List.Forall_forall _ _) Hnan a Ha). cbv beta iota.
    now rewrite (Hgone a Hin).
  - intros C k r Hk. eapply drive_cons_Ok; [exact Hall | exact Hk].
Qed.

Lemma Blk_scope_witness :
  let en := [("z", NFloat 0%float)] in
  let sf := mkState 1 [[NFloat 0%float; NFloat 1%float]; []] en [] [] [] in
  drive 65 (mkState 0 [[]] en [] [] [VTerm fac_blk]) = Some (Ok sf) /\
  allocated 65 (mkState 0 [[]; []] en [] [VTerm fac; VList 1] [VTerm dec])
  = [NFloat 0%float; NFloat 1%float] /\
  env sf = en /\ val sf = [] /\ ledger sf = Some [] /\
  sto_get (sto sf) (NFloat 0%float) = None /\
  eval (set_cnt [VTerm (Id "z")] sf) = Err KeyError.
Proof.
  intros en sf.
  assert (drive 65 (mkState 0 [[]] en [] [] [VTerm fac_blk]) = Some (Ok sf))
    as H by (vm_compute; reflexivity).
  assert (allocated 65 (mkState 0 [[]; []] en [] [VTerm fac; VList 1]
                          [VTerm dec])
          = [NFloat 0%float; NFloat 1%float]) as A
    by (vm_compute; reflexivity).
  split; [exact H|]. split; [exact A|].
  destruct (Blk_scope dec fac 65 0 [[]] en [] [] sf H)
    as (snapshot & added & grown & m & hd & std & lb & hb & stb
        & Hsnap & _ & _ & Eadd & _ & _ & _ & Henv & Hled & Hval & _ & _
        & Hres & _).
  injection Hsnap as <-.
  assert (In (NFloat 0%float) added) as Hin.
  { rewrite Eadd.
    change (In (NFloat 0%float)
              (allocated 65 (mkState 0 [[]; []] en [] [VTerm fac; VList 1]
                               [VTerm dec]))).
    rewrite A. now left. }
  destruct (Hres "z" (NFloat 0%float) [] eq_refl Hin) as [Hg Hk].
  split; [exact Henv|]. split; [exact Hval|]. split; [exact Hled|].
  split; [exact Hg | exact Hk].
Defined.

(** C3 (as amended).  In the factorial example, when the loop has ended
    and only the [#BLKCMD] marker is left on the control stack (after 64
    steps), the store maps the location of [x] to [2.0] and the location
    of [y] to [0.0].  The [#BLKCMD] step that empties the control stack
    then removes both entries and restores the empty environment. *)
Theorem factorial_before_block_exit :
  exists sb sf,
    run 64 (seed [] [] fac_blk) = Ok sb /\
    cnt sb = [VStr DecCmdKW.BLKCMD] /\
    env sb = [("x", NFloat 0%float); ("y", NFloat 1%float)] /\
    sto sb = [(NFloat 0%float, NFloat 2%float);
              (NFloat 1%float, NFloat 0%float)] /\
    (exists lx, env_get (env sb) "x" = Some lx /\
                sto_get (sto sb) lx = Some (NFloat 2%float)) /\
    (exists ly, env_get (env sb) "y" = Some ly /\
                sto_get (sto sb) ly = Some (NFloat 0%float)) /\
    eval sb = Ok sf /\
    drive 65 (seed [] [] fac_blk) = Some (Ok sf) /\
    cnt sf = [] /\ env sf = [] /\ sto sf = [].
Proof.
  do 2 eexists.
  split; [vm_compute; reflexivity|].
  split; [reflexivity|]. split; [reflexivity|]. split; [reflexivity|].
  split; [exists (NFloat 0%float); split; reflexivity|].
  split; [exists (NFloat 1%float); split; reflexivity|].
  split; [vm_compute; reflexivity|].
  split; [vm_compute; reflexivity|].
  repeat split.
Qed.

(** C3, as stated, fails: once the factorial example has been driven to
    an empty control stack, the store is empty and neither [x] nor [y] has
    a location, so no location of the store holds [2.0] or [0.0]. *)
Lemma factorial_final_store_empty :
  (exists sf, drive 65 (seed [] [] fac_blk) = Some (Ok sf)) /\
  (forall n sf,
     drive n (seed [] [] fac_blk) = Some (Ok sf) ->
     sto sf = [] /\ env sf = [] /\
     env_get (env sf) "x" = None /\ env_get (env sf) "y" = None /\
     forall l, sto_get (sto sf) l = None) /\
  ~ (exists n sf lx ly,
       drive n (seed [] [] fac_blk) = Some (Ok sf) /\
       sto_get (sto sf) lx = Some (NFloat 2%float) /\
       sto_get (sto sf) ly = Some (NFloat 0%float)).
Proof.
  assert (drive 65 (seed [] [] fac_blk)
          = Some (Ok (mkState 1 [[NFloat 0%float; NFloat 1%float]; []]
                        [] [] [] []))) as H65 by (vm_compute; reflexivity).
  split; [eexists; exact H65|]. split.
  - intros n sf H. pose proof (drive_functional _ _ _ _ _ H H65) as E.
    injection E as ->. repeat split.
  - intros (n & sf & lx & ly & H & Hx & _).
    pose proof (drive_functional _ _ _ _ _ H H65) as E.
    injection E as ->. discriminate Hx.
Qed.

(** C4 (as amended).  The [#REF] step pops a number [n], takes as location
    [0.0] when the store is empty and otherwise [m + 1] for the key [m]
    that Python's [max] picks among the keys of the store, stores [n] at
    that location, appends the location to the ledger and pushes it.
    [m] is a key, and when the keys are floats (as all locations handed
    out from an empty store are) no key is greater than [m].  The location
    depends on the current store only. *)
Theorem Ref_allocation (l : nat) (h : list (list num)) (en : Env) (st : Sto)
    (v : value) (vs : ValueStack) (C : ControlStack) (s' : state) :
  eval (mkState l h en st (v :: vs) (VStr DecExpKW.REF :: C)) = Ok s' ->
  exists (a n : num) (ls : list num),
    v = VNum n /\
    match map fst st with
    | [] => a = NFloat 0%float
    | k :: ks =>
        In (py_max k ks) (map fst st) /\
        (forallb float_key (map fst st) = true ->
         forall x, In x (map fst st) -> num_gt x (py_max k ks) = false) /\
        num_add (py_max k ks) (NInt 1) = Ok a
    end /\
    h !! l = Some ls /\
    s' = mkState l (<[l := ls ++ [a]]> h) en (sto_set st a n) (VNum a :: vs) C.
Proof.
  intros H. eval_in H.
  destruct (map fst st) as [|k ks] eqn:Ek.
  - repeat stuck H. injection H as <-.
    exists (NFloat 0%float), n, l0. repeat split; congruence.
  - repeat stuck H. injection H as <-.
    exists a, n, l0. repeat split; try congruence.
    + apply py_max_In.
    + intros Hk. now apply py_max_greatest.
Qed.

Lemma Ref_allocation_witness :
  let h := [[NFloat 0%float; NFloat 1%float]] in
  let st := [(NFloat 0%float, NFloat 5%float);
             (NFloat 1%float, NFloat 6%float)] in
  let s' := mkState 0 [[NFloat 0%float; NFloat 1%float; NFloat 2%float]] []
              (st ++ [(NFloat 2%float, NFloat 7%float)])
              [VNum (NFloat 2%float)] [] in
  eval (mkState 0 h [] st [VNum (NFloat 7%float)] [VStr DecExpKW.REF])
  = Ok s' /\
  exists (a n : num) (ls : list num),
    VNum (NFloat 7%float) = VNum n /\
    (In (py_max (NFloat 0%float) [NFloat 1%float]) (map fst st) /\
     (forallb float_key (map fst st) = true ->
      forall x, In x (map fst st) ->
                num_gt x (py_max (NFloat 0%float) [NFloat 1%float]) = false) /\
     num_add (py_max (NFloat 0%float) [NFloat 1%float]) (NInt 1) = Ok a) /\
    h !! 0 = Some ls /\
    s' = mkState 0 (<[0 := ls ++ [a]]> h) [] (sto_set st a n) (VNum a :: []) [].
Proof.
  intros h st s'.
  assert (eval (mkState 0 h [] st [VNum (NFloat 7%float)]
                  [VStr DecExpKW.REF]) = Ok s') as H by reflexivity.
  split; [exact H|].
  exact (Ref_allocation 0 h [] st (VNum (NFloat 7%float)) [] [] s' H).
Defined.

(** C4, as stated, fails: in a run of two blocks, one after the other,
    each with one reference, both [#REF] steps hand out the location
    [0.0] (the store is empty again when the second block starts), so the
    locations allocated over the run are neither unique nor increasing. *)
Lemma allocation_not_unique :
  (exists sf, drive 100 (seed [] [] two_blocks) = Some (Ok sf)) /\
  allocated 100 (seed [] [] two_blocks) = [NFloat 0%float; NFloat 0%float] /\
  ~ NoDup (allocated 100 (seed [] [] two_blocks)) /\
  num_gt (NFloat 0%float) (NFloat 0%float) = false.
Proof.
  assert (allocated 100 (seed [] [] two_blocks)
          = [NFloat 0%float; NFloat 0%float]) as E by (vm_compute; reflexivity).
  split; [eexists; vm_compute; reflexivity|].
  split; [exact E|]. split; [|reflexivity].
  rewrite E. intros Hnd. apply NoDup_cons_1_1 in Hnd. apply Hnd. left.
Qed.

(** C5.  For all commands [c1], [c2] and every machine (environment,
    store, ledger, value stack), driving [CSeq(c1, c2)] ends on [r]
    exactly when driving [c1] ends on some state [s1] and driving [c2]
    from [s1] ends on [r], or driving [c1] raises and [r] is that
    exception: [c1] is evaluated to its end before [c2] starts, and the
    final state, so the final store, is the one of [c1] then [c2]. *)
Theorem CSeq_composition (c1 c2 : Cmd) (l : nat) (h : list (list num))
    (en : Env) (st : Sto) (vs : ValueStack) (r : result state) :
  finishes (mkState l h en st vs [VTerm (CSeq c1 c2)]) r <->
  (exists s1, finishes (mkState l h en st vs [VTerm c1]) (Ok s1) /\
              finishes (set_cnt [VTerm c2] s1) r)
  \/ (exists e, r = Err e /\
                finishes (mkState l h en st vs [VTerm c1]) (Err e)).
Proof.
  split.
  - intros [n H]. destruct n as [|n]; [discriminate|]. step H.
    apply drive_cons in H as [(s1 & H1 & H2)|(e & -> & H1)].
    + left. exists s1. split; eexists; eassumption.
    + right. exists e. split; [reflexivity | eexists; eassumption].
  - intros [(s1 & [n1 H1] & [n2 H2])|(e & -> & [n1 H1])].
    + exists (S (n1 + n2)). rewrite drive_step by reflexivity.
      change (eval _) with
        (Ok (mkState l h en st vs [VTerm c1; VTerm c2])).
      cbv beta iota. eapply drive_cons_Ok; eassumption.
    + exists (S n1). rewrite drive_step by reflexivity.
      change (eval _) with
        (Ok (mkState l h en st vs [VTerm c1; VTerm c2])).
      cbv beta iota. now apply drive_cons_Err.
Qed.

Lemma CSeq_composition_witness :
  let en := [("x", NFloat 0%float)] in
  let c1 := Assign "x" (Num 2%float) in
  let c2 := Assign "x" (Sum (Id "x") (Num 3%float)) in
  finishes (mkState 0 [[]] en [(NFloat 0%float, NFloat 1%float)] []
              [VTerm (CSeq c1 c2)])
           (Ok (mkState 0 [[]] en [(NFloat 0%float, NFloat 5%float)] [] [])).
Proof.
  intros en c1 c2.
  apply (proj2 (CSeq_composition c1 c2 0 [[]] en
                  [(NFloat 0%float, NFloat 1%float)] [] _)).
  left. exists (mkState 0 [[]] en [(NFloat 0%float, NFloat 2%float)] [] []).
  split; [exists 3; reflexivity | exists 6; reflexivity].
Defined.

(** C6.  In a machine whose environment binds [y] to a location that
    holds [2.0], driving [Loop(Not(Eq(Id("y"), Num(0.0))), body)] with
    [body = Assign(Id("y"), Sub(Id("y"), Num(1.0)))] ends (after 36
    steps), [body] has been popped for execution exactly twice, and the
    store holds [0.0] at the location of [y].  And whenever the [#LOOP]
    step finds a false condition on the value stack, it drops the two
    saved entries below it (the body and the [Loop] term) and pushes
    nothing on either stack. *)
Theorem countdown_loop (l : nat) (h : list (list num)) (en : Env) (st : Sto)
    (vs : ValueStack) (ly : num) :
  env_get en "y" = Some ly ->
  num_is_nan ly = false ->
  sto_get st ly = Some (NFloat 2%float) ->
  let s0 := mkState l h en st vs [VTerm countdown] in
  let sf := mkState l h en
              (sto_set (sto_set st ly (NFloat 1%float)) ly (NFloat 0%float))
              vs [] in
  drive 36 s0 = Some (Ok sf) /\
  pops is_decr_y 36 s0 = 2 /\
  sto_get (sto sf) ly = Some (NFloat 0%float) /\
  (forall t body lo C,
     py_truth h t = Ok false ->
     eval (mkState l h en st (t :: body :: lo :: vs) (VStr CmdKW.LOOP :: C))
     = Ok (mkState l h en st vs C)).
Proof.
  intros Hy Hnan Hst s0 sf. subst s0 sf.
  pose proof (num_eq_refl ly Hnan) as Hrefl.
  repeat split.
  - unfold countdown, decr_y.
    do 36 (rewrite drive_step by reflexivity; eval_goal;
           repeat first [ rewrite Hy | rewrite Hnan | rewrite Hst
                        | rewrite (sto_get_set_same _ _ _ Hrefl)
                        | compute_test ]).
    reflexivity.
  - unfold countdown, decr_y.
    do 36 (rewrite pops_step; eval_goal;
           repeat first [ rewrite Hy | rewrite Hnan | rewrite Hst
                        | rewrite (sto_get_set_same _ _ _ Hrefl)
                        | compute_test ]).
    reflexivity.
  - simpl. now apply sto_get_set_same.
  - intros t body lo C Ht. eval_goal. rewrite Ht. reflexivity.
Qed.

Lemma countdown_loop_witness :
  let en := [("x", NFloat 0%float); ("y", NFloat 1%float)] in
  let st := [(NFloat 0%float, NFloat 1%float);
             (NFloat 1%float, NFloat 2%float)] in
  (env_get en "y" = Some (NFloat 1%float) /\
   num_is_nan (NFloat 1%float) = false /\
   sto_get st (NFloat 1%float) = Some (NFloat 2%float)) /\
  drive 36 (mkState 0 [[]] en st [] [VTerm countdown])
  = Some (Ok (mkState 0 [[]] en
                [(NFloat 0%float, NFloat 1%float);
                 (NFloat 1%float, NFloat 0%float)] [] [])) /\
  pops is_decr_y 36 (mkState 0 [[]] en st [] [VTerm countdown]) = 2.
Proof.
  intros en st.
  assert (env_get en "y" = Some (NFloat 1%float)) as H1 by reflexivity.
  assert (num_is_nan (NFloat 1%float) = false) as H2 by reflexivity.
  assert (sto_get st (NFloat 1%float) = Some (NFloat 2%float)) as H3
    by reflexivity.
  split; [auto|].
  destruct (countdown_loop 0 [[]] en st [] (NFloat 1%float) H1 H2 H3)
    as (Hd & Hp & _).
  split; [exact Hd | exact Hp].
Defined.



(** C8.  Every constructor with operands checks their sorts when it is
    called: it returns the term when each operand has the sort of its
    position ([Exp], [BoolExp], [Id], [Cmd], [Dec], a float for [Num], a
    string for [Id]) and raises [AssertionError] (the MalformedTerm
    condition) otherwise, so no term with an operand of the wrong sort
    exists that could be pushed on a control stack; [Mul(2.0, 1.0)] is
    the example of the file.  No step of the automaton raises that
    exception, neither the whole automaton nor the expression layer on
    its own. *)
Theorem constructors_assert (v1 v2 : value) (s : state) :
  asserts (isinstance_float v1) (Num_init v1) /\
  asserts (isinstance_Exp v1 && isinstance_Exp v2) (Sum_init v1 v2) /\
  asserts (isinstance_Exp v1 && isinstance_Exp v2) (Sub_init v1 v2) /\
  asserts (isinstance_Exp v1 && isinstance_Exp v2) (Mul_init v1 v2) /\
  asserts (isinstance_Exp v1 && isinstance_Exp v2) (Eq_init v1 v2) /\
  asserts (isinstance_Exp v1) (Not_init v1) /\
  asserts (isinstance_str v1) (Id_init v1) /\
  asserts (isinstance_Id v1 && isinstance_Exp v2) (Assign_init v1 v2) /\
  asserts (isinstance_BoolExp v1 && isinstance_Cmd v2) (Loop_init v1 v2) /\
  asserts (isinstance_Cmd v1 && isinstance_Cmd v2) (CSeq_init v1 v2) /\
  asserts (isinstance_Id v1 && isinstance_Exp v2) (Bind_init v1 v2) /\
  asserts (isinstance_Exp v1) (Ref_init v1) /\
  asserts (isinstance_Exp v1) (Cns_init v1) /\
  asserts (isinstance_Dec v1 && isinstance_Cmd v2) (Blk_init v1 v2) /\
  asserts (isinstance_Dec v1 && isinstance_Dec v2) (DSeq_init v1 v2) /\
  Mul_init (VNum (NFloat 2%float)) (VNum (NFloat 1%float)) = Err AssertionError /\
  eval s <> Err AssertionError /\
  ExpAut_step s <> Err AssertionError.
Proof.
  repeat match goal with |- _ /\ _ => split end.
  all: try (match goal with
            | |- asserts _ _ =>
                unfold asserts; destruct v1 as [[]| |[[]| |]| | |];
                try (destruct v2 as [[]| |[[]| |]| | |]); cbv; eauto
            end; fail).
  - reflexivity.
  - unfold eval, exec. pose proof (quiet_DecAut_eval s).
    destruct (DecAut_eval s) as [[[] ?]|]; congruence.
  - unfold ExpAut_step, exec. pose proof (quiet_ExpAut_eval s).
    destruct (ExpAut_eval s) as [[[] ?]|]; congruence.
Qed.

(** C9.  [Cns(e)] can be built from every expression [e], and no layer
    has a rule for it: a step whose control stack has a [Cns] term on top
    raises the ill-formed exception, the declaration layer handing the
    term to the command layer, which hands it to the expression layer,
    whose [else] branch raises. *)
Theorem Cns_has_no_rule (e : Exp) (l : nat) (h : list (list num)) (en : Env)
    (st : Sto) (vs : ValueStack) (C : ControlStack) :
  let s := mkState l h en st vs (VTerm (Cns e) :: C) in
  Cns_init (VTerm e) = Ok (SExp (Cns e)) /\
  eval s = Err (IllFormed (VTerm (Cns e))) /\
  DecAut_dispatch (VTerm (Cns e)) = (pushCnt (VTerm (Cns e)) ;; CmdAut_eval)%pi /\
  CmdAut_dispatch (VTerm (Cns e)) = (pushCnt (VTerm (Cns e)) ;; ExpAut_eval)%pi /\
  ExpAut_dispatch (VTerm (Cns e)) = raise (IllFormed (VTerm (Cns e))) /\
  exec CmdAut_eval s = Err (IllFormed (VTerm (Cns e))) /\
  exec ExpAut_eval s = Err (IllFormed (VTerm (Cns e))).
Proof. repeat split; reflexivity. Qed.

(** C10.  The evaluation of an expression built from [Num], [Sum], [Sub],
    [Mul], [Eq] and [Not] always comes to an end, and when it ends without
    an exception the environment, the store and the ledger (the list
    object and what it holds) are the ones before; the value stack has
    one number more. *)
Theorem pure_expression_frame (e : Exp) (l : nat)
    (h : list (list num)) (en : Env) (st : Sto) (vs : ValueStack) :
  pure e = true ->
  let s := mkState l h en st vs [VTerm e] in
  (exists n r, drive n s = Some r) /\
  (forall n s',
     drive n s = Some (Ok s') ->
     env s' = en /\ sto s' = st /\ locs s' = l /\ heap s' = h /\
     ledger s' = ledger s /\
     exists v, val s' = VNum v :: vs).
Proof.
  intros Hp s. split; [now apply pure_finishes|].
  intros n s' H.
  assert (forallb pure_entry (cnt s) = true)
    as Hc by (simpl; now rewrite Hp).
  pose proof (drive_pure n _ _ Hc H) as (E1 & E2 & E3 & E4).
  simpl in E1, E2, E3, E4.
  apply drive_post in H as [_ [_ Hv]]. simpl in Hv.
  repeat split; try assumption.
  unfold ledger. simpl. now rewrite E3, E4.
Qed.

Lemma pure_expression_frame_witness :
  let e := Sum (Num 1%float) (Mul (Num 2%float) (Num 4%float)) in
  let en := [("x", NFloat 0%float)] in
  let st := [(NFloat 0%float, NFloat 5%float)] in
  let s' := mkState 0 [[NFloat 0%float]] en st [VNum (NFloat 9%float)] [] in
  pure e = true /\
  drive 10 (mkState 0 [[NFloat 0%float]] en st [] [VTerm e]) = Some (Ok s') /\
  env s' = en /\ sto s' = st /\ locs s' = 0 /\ heap s' = [[NFloat 0%float]].
Proof.
  intros e en st s'.
  assert (pure e = true) as Hp by reflexivity.
  assert (drive 10 (mkState 0 [[NFloat 0%float]] en st [] [VTerm e])
          = Some (Ok s')) as H by (vm_compute; reflexivity).
  split; [exact Hp|]. split; [exact H|].
  destruct (proj2 (pure_expression_frame e 0 [[NFloat 0%float]] en st [] Hp)
              10 s' H) as (E1 & E2 & E3 & E4 & _).
  repeat split; assumption.
Defined.

(** * Further properties *)

(** ** Runs that come to an end *)

(** The run of a term's first step followed by its operands and marker. *)
Lemma finishes_step s s1 r :
  eval s = Ok s1 -> cnt s <> [] -> finishes s1 r -> finishes s r.
Proof.
  intros He Hc [n H]. exists (S n). rewrite drive_step.
  - now rewrite He.
  - unfold emptyCnt. destruct (cnt s); [now elim Hc | reflexivity].
Qed.

Lemma finishes_cons l h en st vs c C s1 r :
  finishes (mkState l h en st vs [c]) (Ok s1) ->
  finishes (set_cnt C s1) r ->
  finishes (mkState l h en st vs (c :: C)) r.
Proof.
  intros [n1 H1] [n2 H2]. exists (n1 + n2). eapply drive_cons_Ok; eassumption.
Qed.

Lemma finishes_Ok_empty s s' : finishes s (Ok s') -> cnt s' = [].
Proof. intros [n H]. eapply drive_Ok_empty; exact H. Qed.

Lemma finishes_functional s r1 r2 : finishes s r1 -> finishes s r2 -> r1 = r2.
Proof. intros [n1 H1] [n2 H2]. eapply drive_functional; eassumption. Qed.

(** The last step of a run: a marker alone on the control stack. *)
Lemma finishes_last s r :
  cnt s <> [] ->
  eval s = r ->
  match r with Ok s' => cnt s' = [] | Err _ => True end ->
  finishes s r.
Proof.
  intros Hc He Hr. exists 1. rewrite drive_step.
  - rewrite He. destruct r as [s'|e]; [|reflexivity].
    apply drive_done. now apply emptyCnt_nil.
  - unfold emptyCnt. destruct (cnt s); [now elim Hc | reflexivity].
Qed.

(** ** Stacks *)

(** X1.  Stack discipline: when the evaluation of a term ends without an
    exception, the control stack is empty, the environment is the one
    before, and the value stack is the one before with a number on top
    for an expression, a dict on top for a declaration, and nothing more
    for a command; an expression or a declaration leaves the same list
    object as ledger. *)
Theorem stack_discipline (t : Statement) (n : nat) (l : nat)
    (h : list (list num)) (en : Env) (st : Sto) (vs : ValueStack)
    (s' : state) :
  drive n (mkState l h en st vs [VTerm t]) = Some (Ok s') ->
  cnt s' = [] /\ env s' = en /\
  match t with
  | SExp _ => locs s' = l /\ exists v, val s' = VNum v :: vs
  | SDec _ => locs s' = l /\ exists m, val s' = VDict m :: vs
  | SCmd _ => val s' = vs
  end.
Proof.
  intros H. split; [eapply drive_Ok_empty; exact H|].
  apply drive_post in H as [[He _] Ht]. split; [exact He|].
  destruct t; exact Ht.
Qed.

Lemma stack_discipline_witness :
  let s' := mkState 0 [[]] [("x", NFloat 0%float)]
              [(NFloat 0%float, NFloat 7%float)] [VStr "below"] [] in
  drive 9 (mkState 0 [[]] [("x", NFloat 0%float)]
             [(NFloat 0%float, NFloat 1%float)] [VStr "below"]
             [VTerm (Assign "x" (Sum (Num 3%float) (Num 4%float)))])
  = Some (Ok s') /\
  cnt s' = [] /\ env s' = [("x", NFloat 0%float)] /\ val s' = [VStr "below"].
Proof.
  intros s'.
  assert (drive 9 (mkState 0 [[]] [("x", NFloat 0%float)]
             [(NFloat 0%float, NFloat 1%float)] [VStr "below"]
             [VTerm (Assign "x" (Sum (Num 3%float) (Num 4%float)))])
          = Some (Ok s')) as H by (vm_compute; reflexivity).
  split; [exact H|].
  exact (stack_discipline _ _ _ _ _ _ _ _ H).
Defined.

(** X2.  Nothing below the top of the control stack takes part in the
    evaluation of the top entry: driving a machine whose control stack is
    [c] on top of [C] ends on [r] exactly when driving it with [c] alone
    ends on a state [s1] and driving [s1] with control stack [C] ends on
    [r], or driving it with [c] alone raises and [r] is that exception. *)
Theorem control_frame (c : value) (C : ControlStack) (l : nat)
    (h : list (list num)) (en : Env) (st : Sto) (vs : ValueStack)
    (r : result state) :
  finishes (mkState l h en st vs (c :: C)) r <->
  (exists s1, finishes (mkState l h en st vs [c]) (Ok s1) /\
              finishes (set_cnt C s1) r)
  \/ (exists e, r = Err e /\ finishes (mkState l h en st vs [c]) (Err e)).
Proof.
  split.
  - intros [n H]. apply drive_cons in H as [(s1 & H1 & H2)|(e & -> & H1)].
    + left. exists s1. split; eexists; eassumption.
    + right. exists e. split; [reflexivity | eexists; eassumption].
  - intros [(s1 & [n1 H1] & [n2 H2])|(e & -> & [n1 H1])].
    + exists (n1 + n2). eapply drive_cons_Ok; eassumption.
    + exists n1. now apply drive_cons_Err.
Qed.

Lemma control_frame_witness :
  finishes (mkState 0 [[]] [] [] []
              [VTerm (Num 1%float); VTerm (Num 2%float); VStr ExpKW.SUB])
           (Ok (mkState 0 [[]] [] [] [VNum (NFloat 1%float)] [])).
Proof.
  apply (proj2 (control_frame _ _ 0 [[]] [] [] [] _)).
  left. exists (mkState 0 [[]] [] [] [VNum (NFloat 1%float)] []).
  split; [exists 1; reflexivity | exists 2; reflexivity].
Defined.

(** ** The exceptions of a term's evaluation *)

(** The arithmetic of two numbers raises [OverflowError] only. *)
Lemma float_of_Z_error z e : float_of_Z z = Err e -> e = OverflowError.
Proof. unfold float_of_Z. case_match; congruence. Qed.

Lemma num_float_error n e : num_float n = Err e -> e = OverflowError.
Proof. destruct n; simpl; try discriminate; apply float_of_Z_error. Qed.

Lemma num_arith_error fz ff a b e :
  num_arith fz ff a b = Err e -> e = OverflowError.
Proof.
  unfold num_arith, rbind.
  pose proof (num_float_error a). pose proof (num_float_error b).
  repeat case_match; try discriminate; intros [= <-]; eauto.
Qed.

Lemma py_arith_error a b e :
  py_add (VNum a) (VNum b) = Err e \/ py_sub (VNum a) (VNum b) = Err e \/
  py_mul (VNum a) (VNum b) = Err e ->
  e = OverflowError.
Proof.
  unfold py_add, py_sub, py_mul, rmap, rbind, num_add, num_sub, num_mul.
  intros [H|[H|H]];
    match type of H with
    | context [num_arith ?f ?g a b] =>
        pose proof (num_arith_error f g a b) as Ha;
        destruct (num_arith f g a b); [discriminate|]
    end; injection H as <-; now apply Ha.
Qed.

Lemma newLoc_error s e : newLoc s = Err e -> e = OverflowError.
Proof.
  unfold newLoc. destruct (map fst (sto s)); [discriminate|].
  unfold num_add.
  pose proof (num_arith_error Z.add PrimFloat.add (py_max n l) (NInt 1)) as Ha.
  destruct (num_arith _ _ _ _); [discriminate|]. intros [= <-]. now apply Ha.
Qed.

Ltac term_error_tac :=
  first [ left; reflexivity
        | right; left; reflexivity
        | right; right; left; reflexivity
        | right; right; right; eexists; reflexivity ].

(** A sub-evaluation in the run [H]: either it raises, or it ends as the
    stack discipline says. *)
Ltac sube IH H :=
  let s1 := fresh "s" in
  let Hs := fresh "Hsub" in
  let e' := fresh "e" in
  let He := fresh "He" in
  apply drive_cons in H as [(s1 & Hs & H)|(e' & He & Hs)];
  [ let Hc := fresh "Hc" in
    pose proof (drive_Ok_empty _ _ _ Hs) as Hc;
    apply drive_post in Hs;
    destruct s1 as [?l ?h ?en ?st ?vs ?cs]; simpl in Hc; subst;
    unfold set_cnt in H; simpl in H;
    destruct Hs as [[? _] ?]; simpl in *;
    repeat match goal with
           | H : _ /\ _ |- _ => destruct H
           | H : exists _, _ |- _ => destruct H
           end; subst
  | injection He as <-; eapply IH; [|exact Hs]; lia ].

(** The end of a case: the step went through, or raised. *)
Ltac classify H :=
  first
    [ rewrite drive_done in H by reflexivity; discriminate H
    | injection H as <-;
      try match goal with
          | E : py_add _ _ = Err _ |- _ =>
              rewrite (py_arith_error _ _ _ (or_introl E))
          | E : py_sub _ _ = Err _ |- _ =>
              rewrite (py_arith_error _ _ _ (or_intror (or_introl E)))
          | E : py_mul _ _ = Err _ |- _ =>
              rewrite (py_arith_error _ _ _ (or_intror (or_intror E)))
          | E : num_add _ _ = Err _ |- _ =>
              rewrite (num_arith_error _ _ _ _ _ E)
          end;
      term_error_tac ].

Lemma drive_error n : forall t l h en st vs e,
  drive n (mkState l h en st vs [VTerm t]) = Some (Err e) ->
  term_error e.
Proof.
  induction n as [n IH] using lt_wf_ind. intros t l h en st vs e H.
  destruct n as [|n]; [discriminate|].
  destruct t as [x|c|d].
  - destruct x as [f|e1 e2|e1 e2|e1 e2|[e1 e2|e1]|x|e1|e1]; step H.
    + classify H.
    + sube IH H. sube IH H. marker H. repeat stuck H; classify H.
    + sube IH H. sube IH H. marker H. repeat stuck H; classify H.
    + sube IH H. sube IH H. marker H. repeat stuck H; classify H.
    + sube IH H. sube IH H. marker H. unfold py_eq in H. classify H.
    + sube IH H. marker H. unfold py_truth in H. classify H.
    + repeat stuck H; classify H.
    + sube IH H. marker H. repeat stuck H; classify H.
    + classify H.
  - destruct c as [x e0|be c|c1 c2|d c]; step H.
    + sube IH H. marker H. repeat stuck H; classify H.
    + sube IH H. marker H. unfold py_truth in H. cbv beta iota in H.
      stuck H.
      * sube IH H. eapply IH; [|exact H]. lia.
      * classify H.
    + sube IH H. eapply IH; [|exact H]. lia.
    + stuck H; [|classify H]. sube IH H. marker H. sube IH H.
      marker H. repeat stuck H; classify H.
  - destruct d as [x e0|d1 d2]; step H.
    + sube IH H. marker H. classify H.
    + sube IH H. sube IH H. marker H. classify H.
Qed.

(** X3.  The evaluation of a term, whatever the machine it starts in,
    never raises [IndexError], [TypeError], [AttributeError] or
    [AssertionError]: when it raises, the exception is [KeyError] (an
    unbound name or a location absent from the store), [OverflowError]
    (an integer too large for a float), the ill-formed exception for a
    [Cns] term, or one of the operations left out of the model. *)
Theorem term_evaluation_errors (t : Statement) (n : nat) (l : nat)
    (h : list (list num)) (en : Env) (st : Sto) (vs : ValueStack)
    (e : error) :
  drive n (mkState l h en st vs [VTerm t]) = Some (Err e) ->
  term_error e /\
  e <> IndexError /\ e <> TypeError /\ e <> AttributeError /\
  e <> AssertionError.
Proof.
  intros H. apply drive_error in H. split; [exact H|].
  destruct H as [->|[->|[->|[x ->]]]]; repeat split; discriminate.
Qed.

Lemma term_evaluation_errors_witness :
  drive 9 (seed [] [] (Assign "x" (Num 1%float))) = Some (Err KeyError) /\
  term_error KeyError.
Proof.
  assert (drive 9 (seed [] [] (Assign "x" (Num 1%float)))
          = Some (Err KeyError)) as H by (vm_compute; reflexivity).
  split; [exact H|].
  exact (proj1 (term_evaluation_errors _ 9 0 [[]] [] [] [] _ H)).
Defined.

(** ** Entries without a rule *)

(** The operators raise no ill-formed exception. *)
Lemma py_op_error v1 v2 e :
  py_add v1 v2 = Err e \/ py_sub v1 v2 = Err e \/ py_mul v1 v2 = Err e \/
  py_eq v1 v2 = Err e ->
  e = OverflowError \/ e = TypeError \/ e = OutOfModel.
Proof.
  intros H.
  destruct v1 as [a|?|?|?|?|?], v2 as [b|?|?|?|?|?];
    try (left; destruct H as [H|[H|[H|H]]];
         [ apply (py_arith_error a b); auto
         | apply (py_arith_error a b); auto
         | apply (py_arith_error a b); auto
         | discriminate H ]);
    destruct H as [H|[H|[H|H]]];
    cbv [py_add py_sub py_mul py_eq is_sequence is_integral andb orb] in H;
    repeat case_match; try discriminate H; injection H as <-; auto.
Qed.

Lemma py_truth_error h v e : py_truth h v = Err e -> e = OutOfModel.
Proof. unfold py_truth. repeat case_match; congruence. Qed.

Lemma known_marker_cases k :
  known_marker k = true ->
  In k [ExpKW.SUM; ExpKW.SUB; ExpKW.MUL; ExpKW.EQ; ExpKW.NOT; CmdKW.ASSIGN;
        CmdKW.LOOP; DecKW.BIND; DecKW.DSEQ; DecExpKW.REF; DecCmdKW.BLKDEC;
        DecCmdKW.BLKCMD].
Proof.
  unfold known_marker. rewrite !orb_true_iff, !String.eqb_eq. simpl.
  intuition auto.
Qed.

Lemma unknown_marker_cases k :
  known_marker k = false ->
  String.eqb k ExpKW.SUM = false /\ String.eqb k ExpKW.SUB = false /\
  String.eqb k ExpKW.MUL = false /\ String.eqb k ExpKW.EQ = false /\
  String.eqb k ExpKW.NOT = false /\ String.eqb k CmdKW.ASSIGN = false /\
  String.eqb k CmdKW.LOOP = false /\ String.eqb k DecKW.BIND = false /\
  String.eqb k DecKW.DSEQ = false /\ String.eqb k DecExpKW.REF = false /\
  String.eqb k DecCmdKW.BLKDEC = false /\
  String.eqb k DecCmdKW.BLKCMD = false.
Proof.
  unfold known_marker. rewrite !orb_false_iff. intuition auto.
Qed.

(** A string that is no marker goes through the three layers to the
    [else] branch of the expression layer. *)
Lemma eval_unknown_string k l h en st vs C :
  known_marker k = false ->
  eval (mkState l h en st vs (VStr k :: C)) = Err (IllFormed (VStr k)).
Proof.
  intros (E1 & E2 & E3 & E4 & E5 & E6 & E7 & E8 & E9 & E10 & E11 & E12)
    %unknown_marker_cases.
  cbv [eval exec DecAut_eval DecAut_dispatch CmdAut_eval CmdAut_dispatch
       ExpAut_eval ExpAut_dispatch bind popCnt pushCnt modify raise
       set_cnt cnt locs heap env sto val].
  rewrite E8, E9, E10, E11, E12. cbv beta iota.
  rewrite E6, E7. cbv beta iota.
  rewrite E1, E2, E3, E4, E5. reflexivity.
Qed.

Ltac no_ill H :=
  repeat stuck H;
  try (rewrite drive_done in H by reflexivity);
  try discriminate H;
  try (injection H as H;
       match goal with
       | E : py_add _ _ = Err _ |- _ =>
           destruct (py_op_error _ _ _ (or_introl E)) as [?|[?|?]]
       | E : py_sub _ _ = Err _ |- _ =>
           destruct (py_op_error _ _ _ (or_intror (or_introl E)))
             as [?|[?|?]]
       | E : py_mul _ _ = Err _ |- _ =>
           destruct (py_op_error _ _ _ (or_intror (or_intror (or_introl E))))
             as [?|[?|?]]
       | E : py_eq _ _ = Err _ |- _ =>
           destruct (py_op_error _ _ _ (or_intror (or_intror (or_intror E))))
             as [?|[?|?]]
       | E : py_truth _ _ = Err _ |- _ => apply py_truth_error in E
       | E : num_add _ _ = Err _ |- _ => apply num_arith_error in E
       end; congruence).

(** X4.  A step raises the ill-formed exception exactly on the control
    entries no branch of the three [eval] methods takes, and the
    exception carries that entry: a [Cns] term, a string that is none of
    the twelve markers with a rule (so also ["#CNS"], declared in
    [DecExpKW] but never tested), a number, a dict or a list. *)
Theorem ill_formed_entries (c x : value) (l : nat) (h : list (list num))
    (en : Env) (st : Sto) (vs : ValueStack) (C : ControlStack) :
  (eval (mkState l h en st vs (c :: C)) = Err (IllFormed x)
   <-> has_rule c = false /\ x = c) /\
  has_rule (VStr DecExpKW.CNS) = false.
Proof.
  split; [|reflexivity]. split.
  - intros H.
    destruct (has_rule c) eqn:Hr.
    + exfalso.
      destruct c as [?|k|[[f|e1 e2|e1 e2|e1 e2|[e1 e2|e1]|i|e1|e1]
                          |[i e0|be c0|c1 c2|d c0]|[i e0|d1 d2]]| | |];
        try discriminate Hr.
      * apply known_marker_cases in Hr. simpl in Hr.
        repeat (destruct Hr as [<-|Hr]; [eval_in H; no_ill H|]).
        exact Hr.
      * eval_in H; no_ill H.
      * eval_in H; no_ill H.
      * eval_in H; no_ill H.
      * eval_in H; no_ill H.
      * eval_in H; no_ill H.
      * eval_in H; no_ill H.
      * eval_in H; no_ill H.
      * eval_in H; no_ill H.
      * eval_in H; no_ill H.
      * eval_in H; no_ill H.
      * eval_in H; no_ill H.
      * eval_in H; no_ill H.
      * eval_in H; no_ill H.
      * eval_in H; no_ill H.
    + split; [reflexivity|].
      destruct c as [?|k|[[f|e1 e2|e1 e2|e1 e2|[e1 e2|e1]|i|e1|e1]
                          |[i e0|be c0|c1 c2|d c0]|[i e0|d1 d2]]| | |];
        try discriminate Hr; try (injection H as <-; reflexivity).
      rewrite eval_unknown_string in H by exact Hr. now injection H as <-.
  - intros [Hr ->].
    destruct c as [?|k|[[f|e1 e2|e1 e2|e1 e2|[e1 e2|e1]|i|e1|e1]
                        |[i e0|be c0|c1 c2|d c0]|[i e0|d1 d2]]| | |];
      try discriminate Hr; try reflexivity.
    now apply eval_unknown_string.
Qed.

(** ** Stack underflow *)

Lemma pops_two_cases k :
  pops_two k = true ->
  In k [ExpKW.SUM; ExpKW.SUB; ExpKW.MUL; ExpKW.EQ; CmdKW.ASSIGN;
        DecKW.BIND; DecKW.DSEQ; DecCmdKW.BLKDEC; DecCmdKW.BLKCMD].
Proof.
  unfold pops_two. rewrite !orb_true_iff, !String.eqb_eq. simpl.
  intuition auto.
Qed.

(** X5.  Stack underflow is an [IndexError]: a step on an empty control
    stack raises it at each of the three layers (the driver makes no such
    step); so does the step of any of the twelve markers on an empty
    value stack, and the step of a marker that combines two values on a
    value stack holding one. *)
Theorem stack_underflow (k : string) (v : value) (l : nat)
    (h : list (list num)) (en : Env) (st : Sto) (vs : ValueStack)
    (C : ControlStack) (n : nat) :
  let s := mkState l h en st vs [] in
  (eval s = Err IndexError /\ exec CmdAut_eval s = Err IndexError /\
   ExpAut_step s = Err IndexError /\ drive n s = Some (Ok s)) /\
  (known_marker k = true ->
   eval (mkState l h en st [] (VStr k :: C)) = Err IndexError) /\
  (pops_two k = true ->
   eval (mkState l h en st [v] (VStr k :: C)) = Err IndexError).
Proof.
  intros s. split; [|split].
  - repeat split; try reflexivity. now apply drive_done.
  - intros Hk. apply known_marker_cases in Hk. simpl in Hk.
    repeat (destruct Hk as [<-|Hk]; [reflexivity|]). destruct Hk.
  - intros Hk. apply pops_two_cases in Hk. simpl in Hk.
    repeat (destruct Hk as [<-|Hk]; [reflexivity|]). destruct Hk.
Qed.

Lemma stack_underflow_witness :
  known_marker DecKW.DSEQ = true /\ pops_two DecKW.DSEQ = true /\
  eval (mkState 0 [[]] [] [] [] [VStr DecKW.DSEQ]) = Err IndexError /\
  eval (mkState 0 [[]] [] [] [VDict []] [VStr DecKW.DSEQ]) = Err IndexError.
Proof.
  assert (known_marker DecKW.DSEQ = true) as H1 by reflexivity.
  assert (pops_two DecKW.DSEQ = true) as H2 by reflexivity.
  destruct (stack_underflow DecKW.DSEQ (VDict []) 0 [[]] [] [] [] [] 0)
    as (_ & Ha & Hb).
  repeat split; auto.
Defined.

(** ** The layers on expressions *)

Lemma exp_entry_step (c : value) l h en st vs C :
  exp_entry c = true ->
  eval (mkState l h en st vs (c :: C))
  = ExpAut_step (mkState l h en st vs (c :: C)) /\
  exec CmdAut_eval (mkState l h en st vs (c :: C))
  = ExpAut_step (mkState l h en st vs (c :: C)).
Proof.
  intros Hc.
  destruct c as [?|k|[[f|e1 e2|e1 e2|e1 e2|b|i|e1|e1]| |]| | |];
    try discriminate Hc; try (split; reflexivity).
  simpl in Hc. rewrite !orb_true_iff, !String.eqb_eq in Hc.
  destruct Hc as [[[[->| ->]| ->]| ->]| ->]; split; reflexivity.
Qed.

Lemma pure_entry_exp_entry c : pure_entry c = true -> exp_entry c = true.
Proof.
  destruct c as [?|k|[[f|e1 e2|e1 e2|e1 e2|b|i|e1|e1]| |]| | |];
    simpl; auto.
Qed.

Lemma drive_pure_ExpAut n : forall s,
  forallb pure_entry (cnt s) = true -> drive n s = ExpAut_drive n s.
Proof.
  induction n as [|n IH]; intros s Hp; [reflexivity|].
  simpl. destruct (emptyCnt s) eqn:E; [reflexivity|].
  destruct s as [l h en st vs [|c C]]; [discriminate E|].
  simpl in Hp. apply andb_true_iff in Hp as [Hc HC].
  destruct (exp_entry_step c l h en st vs C (pure_entry_exp_entry _ Hc))
    as [<- _].
  destruct (eval _) as [s1|e] eqn:Ev; [|reflexivity].
  apply IH.
  apply pure_entry_step in Ev as (_ & _ & _ & _ & K & -> & HK); [|exact Hc].
  now rewrite forallb_app, HK, HC.
Qed.

(** X6.  The three automata are one evaluator on expressions: on every
    entry the expression layer has a branch for, a step of the
    declaration automaton and a step of the command automaton are the
    step of the expression automaton (they push the entry back and
    delegate), and on an expression built from [Num], [Sum], [Sub],
    [Mul], [Eq] and [Not] the driver loop of the declaration automaton
    and that of the expression automaton give the same outcome for every
    fuel. *)
Theorem layers_agree_on_expressions (c : value) (e : Exp) (n : nat)
    (l : nat) (h : list (list num)) (en : Env) (st : Sto)
    (vs : ValueStack) (C : ControlStack) :
  (exp_entry c = true ->
   eval (mkState l h en st vs (c :: C))
   = ExpAut_step (mkState l h en st vs (c :: C)) /\
   exec CmdAut_eval (mkState l h en st vs (c :: C))
   = ExpAut_step (mkState l h en st vs (c :: C))) /\
  (pure e = true ->
   drive n (mkState l h en st vs [VTerm e])
   = ExpAut_drive n (mkState l h en st vs [VTerm e])).
Proof.
  split.
  - apply exp_entry_step.
  - intros Hp. apply drive_pure_ExpAut. simpl. now rewrite Hp.
Qed.

Lemma layers_agree_on_expressions_witness :
  let e := Sub (Num 5%float) (Not (Eq (Num 1%float) (Num 2%float))) in
  exp_entry (VStr ExpKW.EQ) = true /\ pure e = true /\
  eval (mkState 0 [[]] [] [] [VNum (NFloat 1%float); VNum (NFloat 1%float)]
          [VStr ExpKW.EQ])
  = ExpAut_step
      (mkState 0 [[]] [] [] [VNum (NFloat 1%float); VNum (NFloat 1%float)]
         [VStr ExpKW.EQ]) /\
  drive 20 (mkState 0 [[]] [] [] [] [VTerm e])
  = ExpAut_drive 20 (mkState 0 [[]] [] [] [] [VTerm e]).
Proof.
  intros e.
  assert (exp_entry (VStr ExpKW.EQ) = true) as H1 by reflexivity.
  assert (pure e = true) as H2 by reflexivity.
  destruct (layers_agree_on_expressions (VStr ExpKW.EQ) e 20 0 [[]] [] []
              [VNum (NFloat 1%float); VNum (NFloat 1%float)] [])
    as [Ha _].
  destruct (layers_agree_on_expressions (VStr ExpKW.EQ) e 20 0 [[]] [] []
              [] []) as [_ Hb].
  split; [exact H1|]. split; [exact H2|].
  split; [exact (proj1 (Ha H1)) | exact (Hb H2)].
Defined.

(** ** Operators *)

(** X7.  Binary operators, whatever their operands: when [e2] evaluates
    to the end, then [e1] in the state [e2] left, and the two values on
    top of the value stack are [v1] (of [e1]) and [v2] (of [e2]), the
    evaluation of [Sum(e1, e2)] ends on that last state with [v1 + v2] in
    place of the two values, or on the exception the addition raises; the
    same for [Sub] with [v1 - v2], [Mul] with [v1 * v2] and [Eq] with
    [v1 == v2].  The right operand is evaluated first, so the left one
    sees its effects. *)
Theorem binary_operator_rule (e1 e2 : Exp) (l : nat) (h : list (list num))
    (en : Env) (st : Sto) (vs : ValueStack) (s2 s1 : state)
    (v1 v2 : value) :
  finishes (mkState l h en st vs [VTerm e2]) (Ok s2) ->
  finishes (set_cnt [VTerm e1] s2) (Ok s1) ->
  val s1 = v1 :: v2 :: vs ->
  let out (r : result value) := rmap (fun v => set_val (v :: vs) s1) r in
  let s := fun e : Exp => mkState l h en st vs [VTerm e] in
  finishes (s (Sum e1 e2)) (out (py_add v1 v2)) /\
  finishes (s (Sub e1 e2)) (out (py_sub v1 v2)) /\
  finishes (s (Mul e1 e2)) (out (py_mul v1 v2)) /\
  finishes (s (BExp (Eq e1 e2)))
           (out (rmap (fun b => VNum (NBool b)) (py_eq v1 v2))).
Proof.
  intros H2 H1 Hv out s. subst out s.
  pose proof (finishes_Ok_empty _ _ H2) as C2.
  pose proof (finishes_Ok_empty _ _ H1) as C1.
  destruct s2 as [l2 h2 en2 st2 vs2 c2]. simpl in C2. subst c2.
  destruct s1 as [l1 h1 en1 st1 vs1 c1]. simpl in C1, Hv. subst c1 vs1.
  unfold set_cnt in H1. simpl in H1.
  repeat split.
  all: eapply finishes_step; [reflexivity | discriminate |].
  all: eapply finishes_cons; [exact H2|]; unfold set_cnt; simpl.
  all: eapply finishes_cons; [exact H1|]; unfold set_cnt; simpl.
  all: apply finishes_last; [discriminate | |].
  - eval_goal. unfold rmap, rbind. now destruct (py_add v1 v2).
  - unfold rmap, rbind. now destruct (py_add v1 v2).
  - eval_goal. unfold rmap, rbind. now destruct (py_sub v1 v2).
  - unfold rmap, rbind. now destruct (py_sub v1 v2).
  - eval_goal. unfold rmap, rbind. now destruct (py_mul v1 v2).
  - unfold rmap, rbind. now destruct (py_mul v1 v2).
  - eval_goal. unfold rmap, rbind. now destruct (py_eq v1 v2).
  - unfold rmap, rbind. now destruct (py_eq v1 v2).
Qed.

Lemma binary_operator_rule_witness :
  let en := [("x", NFloat 0%float)] in
  let st := [(NFloat 0%float, NFloat 10%float)] in
  let e1 := Id "x" in
  let e2 := Mul (Num 2%float) (Num 3%float) in
  finishes (mkState 0 [[]] en st [] [VTerm (Sub e1 e2)])
           (Ok (mkState 0 [[]] en st [VNum (NFloat 4%float)] [])).
Proof.
  intros en st e1 e2.
  assert (finishes (mkState 0 [[]] en st [] [VTerm e2])
            (Ok (mkState 0 [[]] en st [VNum (NFloat 6%float)] [])))
    as H2 by (exists 4; reflexivity).
  assert (finishes
            (set_cnt [VTerm e1]
               (mkState 0 [[]] en st [VNum (NFloat 6%float)] []))
            (Ok (mkState 0 [[]] en st
                   [VNum (NFloat 10%float); VNum (NFloat 6%float)] [])))
    as H1 by (exists 1; reflexivity).
  exact (proj1 (proj2 (binary_operator_rule e1 e2 0 [[]] en st [] _ _
                         _ _ H2 H1 eq_refl))).
Defined.

(** X8.  Comparison of literals is the float comparison of Python: for
    all floats [a], [b], [Eq(Num(a), Num(b))] evaluates to the boolean
    [a == b], so [Eq(Num(a), Num(a))] is true unless [a] is a NaN, for
    which it is false; [Not] of it evaluates to the opposite boolean, and
    [Not(Num(a))] to [a == 0.0].  The expression automaton and the
    declaration automaton agree. *)
Theorem literal_comparison (a b : float) :
  let start (e : Exp) := set_cnt [VTerm e] ExpAut_init in
  let done (t : bool) := set_val [VNum (NBool t)] ExpAut_init in
  ExpAut_drive 4 (start (BExp (Eq (Num a) (Num b))))
    = Some (Ok (done (PrimFloat.eqb a b))) /\
  ExpAut_drive 4 (start (BExp (Eq (Num a) (Num a))))
    = Some (Ok (done (negb (PrimFloat.is_nan a)))) /\
  ExpAut_drive 4 (start (BExp (Eq (Num nan) (Num nan))))
    = Some (Ok (done false)) /\
  ExpAut_drive 6 (start (BExp (Not (BExp (Eq (Num a) (Num b))))))
    = Some (Ok (done (negb (PrimFloat.eqb a b)))) /\
  ExpAut_drive 3 (start (BExp (Not (Num a))))
    = Some (Ok (done (PrimFloat.eqb a 0%float))) /\
  drive 4 (seed [] [] (BExp (Eq (Num a) (Num b))))
    = Some (Ok (done (PrimFloat.eqb a b))) /\
  drive 6 (seed [] [] (BExp (Not (BExp (Eq (Num a) (Num b))))))
    = Some (Ok (done (negb (PrimFloat.eqb a b)))).
Proof.
  repeat split; try reflexivity.
  - unfold PrimFloat.is_nan. now rewrite negb_involutive.
  - cbn. now rewrite negb_involutive.
Qed.

(** X9.  [Not], whatever its operand: when [e] evaluates to the end with
    the value [v] on top of the value stack, [Not(e)] ends on the same
    state with, in place of [v], the boolean that is true exactly when
    [v] is falsy (a zero number, an empty string, dict or list). *)
Theorem Not_rule (e : Exp) (l : nat) (h : list (list num)) (en : Env)
    (st : Sto) (vs : ValueStack) (s1 : state) (v : value) :
  finishes (mkState l h en st vs [VTerm e]) (Ok s1) ->
  val s1 = v :: vs ->
  finishes (mkState l h en st vs [VTerm (BExp (Not e))])
           (rmap (fun t => set_val (VNum (NBool (negb t)) :: vs) s1)
                 (py_truth (heap s1) v)).
Proof.
  intros H1 Hv.
  pose proof (finishes_Ok_empty _ _ H1) as C1.
  destruct s1 as [l1 h1 en1 st1 vs1 c1]. simpl in C1, Hv. subst c1 vs1.
  eapply finishes_step; [reflexivity | discriminate |].
  eapply finishes_cons; [exact H1|]. unfold set_cnt. simpl.
  apply finishes_last; [discriminate | |].
  - eval_goal. unfold rmap, rbind. now destruct (py_truth h1 v).
  - unfold rmap, rbind. now destruct (py_truth h1 v).
Qed.

Lemma Not_rule_witness :
  finishes (mkState 0 [[]] [] [] []
              [VTerm (BExp (Not (Sub (Num 2%float) (Num 2%float))))])
           (Ok (mkState 0 [[]] [] [] [VNum (NBool true)] [])).
Proof.
  assert (finishes (mkState 0 [[]] [] [] []
                      [VTerm (Sub (Num 2%float) (Num 2%float))])
            (Ok (mkState 0 [[]] [] [] [VNum (NFloat 0%float)] [])))
    as H by (exists 4; reflexivity).
  exact (Not_rule _ 0 [[]] [] [] [] _ _ H eq_refl).
Defined.

(** ** Commands *)

(** X10.  What a layer on its own rejects: the expression automaton
    raises the ill-formed exception on every entry it has no branch for,
    among them identifiers, references, commands, declarations and the
    markers of the upper layers; the command automaton raises it on every
    entry neither it nor the expression layer has a branch for, among them
    [Ref], [Blk], [Bind], [DSeq] and the markers of the declaration
    layer.  The exception carries the entry. *)
Theorem layer_rejects (c : value) (l : nat) (h : list (list num)) (en : Env)
    (st : Sto) (vs : ValueStack) (C : ControlStack) :
  let s := mkState l h en st vs (c :: C) in
  (exp_entry c = false -> ExpAut_step s = Err (IllFormed c)) /\
  (cmd_entry c = false -> exec CmdAut_eval s = Err (IllFormed c)).
Proof.
  intros s. subst s. split; intros Hc.
  - destruct c as [?|k|[[f|e1 e2|e1 e2|e1 e2|b|i|e1|e1]| |]| | |];
      try discriminate Hc; try reflexivity.
    unfold exp_entry in Hc. rewrite !orb_false_iff in Hc.
    destruct Hc as [[[[E1 E2] E3] E4] E5].
    cbv [ExpAut_step exec ExpAut_eval ExpAut_dispatch bind popCnt raise
         set_cnt cnt locs heap env sto val].
    now rewrite E1, E2, E3, E4, E5.
  - unfold cmd_entry in Hc. apply orb_false_iff in Hc as [He Hc].
    destruct c as [?|k|[[f|e1 e2|e1 e2|e1 e2|b|i|e1|e1]
                        |[? ?|? ?|? ?|? ?]|]| | |];
      try discriminate Hc; try discriminate He; try reflexivity.
    unfold exp_entry in He. rewrite !orb_false_iff in He.
    rewrite !orb_false_iff in Hc.
    destruct He as [[[[E1 E2] E3] E4] E5]. destruct Hc as [E6 E7].
    cbv [exec CmdAut_eval CmdAut_dispatch ExpAut_eval ExpAut_dispatch bind
         popCnt pushCnt modify raise set_cnt cnt locs heap env sto val].
    rewrite E6, E7. cbv beta iota.
    now rewrite E1, E2, E3, E4, E5.
Qed.

Lemma layer_rejects_witness :
  exp_entry (VTerm (Id "x")) = false /\
  cmd_entry (VTerm (Ref (Num 1%float))) = false /\
  ExpAut_step (mkState 0 [[]] [("x", NFloat 0%float)]
                 [(NFloat 0%float, NFloat 1%float)] [] [VTerm (Id "x")])
  = Err (IllFormed (VTerm (Id "x"))) /\
  exec CmdAut_eval (mkState 0 [[]] [] [] [] [VTerm (Ref (Num 1%float))])
  = Err (IllFormed (VTerm (Ref (Num 1%float)))).
Proof.
  assert (exp_entry (VTerm (Id "x")) = false) as H1 by reflexivity.
  assert (cmd_entry (VTerm (Ref (Num 1%float))) = false) as H2
    by reflexivity.
  split; [exact H1|]. split; [exact H2|]. split.
  - exact (proj1 (layer_rejects (VTerm (Id "x")) 0 [[]]
                    [("x", NFloat 0%float)]
                    [(NFloat 0%float, NFloat 1%float)] [] []) H1).
  - exact (proj2 (layer_rejects (VTerm (Ref (Num 1%float))) 0 [[]]
                    [] [] [] []) H2).
Defined.

(** X11.  Assignment, whatever its expression: when [e], evaluated above
    the saved name [x], ends with the number [v] on top, [Assign(Id(x),
    e)] raises [KeyError] if [x] is unbound in the environment (after
    [e] has been evaluated); if [x] is bound to a location [a] that is
    not a NaN, it ends on the state [e] left with [v] stored at [a] and
    the value stack as it was before, and a step on [Id(x)] then pushes
    [v] back: what is assigned is what is read.  Nothing is said of a name
    bound to a NaN, a key Python finds by object identity. *)
Theorem Assign_rule (x : string) (e : Exp) (l : nat) (h : list (list num))
    (en : Env) (st : Sto) (vs : ValueStack) (s1 : state) (v : num) :
  finishes (mkState l h en st (VStr x :: vs) [VTerm e]) (Ok s1) ->
  val s1 = VNum v :: VStr x :: vs ->
  let stored (a : num) := set_val vs (set_sto (sto_set (sto s1) a v) s1) in
  (env_get en x = None ->
   finishes (mkState l h en st vs [VTerm (Assign x e)]) (Err KeyError)) /\
  (forall a, env_get en x = Some a -> num_is_nan a = false ->
     finishes (mkState l h en st vs [VTerm (Assign x e)]) (Ok (stored a)) /\
     sto_get (sto (stored a)) a = Some v /\
     forall C, eval (set_cnt (VTerm (Id x) :: C) (stored a))
               = Ok (set_cnt C (set_val (VNum v :: vs) (stored a)))).
Proof.
  intros H1 Hv stored. subst stored.
  pose proof (finishes_Ok_empty _ _ H1) as C1.
  assert (env s1 = en) as He.
  { destruct H1 as [n H1]. now apply drive_post in H1 as [[He _] _]. }
  destruct s1 as [l1 h1 en1 st1 vs1 c1]. simpl in C1, Hv, He.
  subst c1 vs1 en1. split.
  - intros Hx.
    eapply finishes_step; [reflexivity | discriminate |].
    eapply finishes_cons; [exact H1|]. unfold set_cnt. simpl.
    apply finishes_last; [discriminate | | exact I].
    eval_goal. now rewrite Hx.
  - intros a Ha Hn. split; [|split].
    + eapply finishes_step; [reflexivity | discriminate |].
      eapply finishes_cons; [exact H1|]. unfold set_cnt. simpl.
      apply finishes_last; [discriminate | | reflexivity].
      eval_goal. now rewrite Ha, Hn.
    + simpl. apply sto_get_set_same. now apply num_eq_refl.
    + intros C. unfold set_cnt, set_val, set_sto. simpl.
      eval_goal. rewrite Ha, Hn.
      now rewrite (sto_get_set_same _ _ _ (num_eq_refl _ Hn)).
Qed.

Lemma Assign_rule_witness :
  let en := [("x", NFloat 0%float)] in
  let st := [(NFloat 0%float, NFloat 1%float)] in
  finishes (mkState 0 [[]] en st []
              [VTerm (Assign "x" (Sum (Id "x") (Num 4%float)))])
           (Ok (mkState 0 [[]] en [(NFloat 0%float, NFloat 5%float)] []
                  [])) /\
  sto_get [(NFloat 0%float, NFloat 5%float)] (NFloat 0%float)
  = Some (NFloat 5%float).
Proof.
  intros en st.
  assert (finishes (mkState 0 [[]] en st [VStr "x"]
                      [VTerm (Sum (Id "x") (Num 4%float))])
            (Ok (mkState 0 [[]] en st
                   [VNum (NFloat 5%float); VStr "x"] [])))
    as H by (exists 4; vm_compute; reflexivity).
  destruct (proj2 (Assign_rule "x" _ 0 [[]] en st [] _ _ H eq_refl)
              (NFloat 0%float) eq_refl eq_refl) as (Hf & Hg & _).
  split; [exact Hf | exact Hg].
Defined.

(** X12.  Loop unrolling.  The evaluation of [Loop(be, c)] ends on [r]
    exactly when either the evaluation of the condition [be] (above the
    saved body and [Loop] term) raises and [r] is that exception, or it
    ends with a number [v] on top and: when [v] is falsy, [r] is the
    state the condition left with the three entries removed from the
    value stack; when [v] is truthy, driving that state with the body [c]
    on top of the same [Loop] term on the control stack ends on [r]. *)
Theorem Loop_unrolling (be : BoolExp) (c : Cmd) (l : nat)
    (h : list (list num)) (en : Env) (st : Sto) (vs : ValueStack)
    (r : result state) :
  let saved := VTerm c :: VTerm (Loop be c) :: vs in
  finishes (mkState l h en st vs [VTerm (Loop be c)]) r <->
  (exists e, r = Err e /\
             finishes (mkState l h en st saved [VTerm be]) (Err e))
  \/ (exists s1 v,
        finishes (mkState l h en st saved [VTerm be]) (Ok s1) /\
        val s1 = VNum v :: saved /\
        if num_truth v
        then finishes (set_cnt [VTerm c; VTerm (Loop be c)] (set_val vs s1)) r
        else r = Ok (set_val vs s1)).
Proof.
  intros saved. subst saved. split.
  - intros [n H]. destruct n as [|n]; [discriminate|]. step H.
    apply drive_cons in H as [(s1 & H1 & H)|(e & -> & H1)].
    + right. pose proof (drive_Ok_empty _ _ _ H1) as C1.
      pose proof H1 as P1. apply drive_post in P1 as [_ [_ [v Hv]]].
      destruct s1 as [l1 h1 en1 st1 vs1 c1]. simpl in C1, Hv. subst c1 vs1.
      exists (mkState l1 h1 en1 st1
                (VNum v :: VTerm c :: VTerm (Loop be c) :: vs) []), v.
      split; [eexists; exact H1|]. split; [reflexivity|].
      unfold set_cnt in H. simpl in H.
      destruct n as [|n]; [discriminate|]. step H.
      unfold py_truth in H. cbv beta iota in H.
      destruct (num_truth v).
      * eexists. exact H.
      * rewrite drive_done in H by reflexivity. now injection H as <-.
    + left. exists e. split; [reflexivity | eexists; exact H1].
  - intros [(e & -> & [n H])|(s1 & v & H1 & Hv & Hr)].
    + exists (S n). rewrite drive_step by reflexivity. eval_goal.
      now apply drive_cons_Err.
    + pose proof (finishes_Ok_empty _ _ H1) as C1.
      destruct s1 as [l1 h1 en1 st1 vs1 c1]. simpl in C1, Hv. subst c1 vs1.
      eapply finishes_step; [reflexivity | discriminate |].
      eapply finishes_cons; [exact H1|]. unfold set_cnt. simpl.
      destruct (num_truth v) eqn:Ev.
      * eapply finishes_step; [|discriminate|exact Hr].
        eval_goal. unfold py_truth. now rewrite Ev.
      * subst r. apply finishes_last; [discriminate| |reflexivity].
        eval_goal. unfold py_truth. now rewrite Ev.
Qed.

Lemma Loop_unrolling_witness :
  let en := [("y", NFloat 0%float)] in
  finishes (mkState 0 [[]] en [(NFloat 0%float, NFloat 0%float)] []
              [VTerm countdown])
           (Ok (mkState 0 [[]] en [(NFloat 0%float, NFloat 0%float)] [] [])).
Proof.
  intros en.
  apply (proj2 (Loop_unrolling _ _ 0 [[]] en
                  [(NFloat 0%float, NFloat 0%float)] [] _)).
  right.
  exists (mkState 0 [[]] en [(NFloat 0%float, NFloat 0%float)]
            [VNum (NBool false); VTerm decr_y; VTerm countdown] []).
  exists (NBool false).
  split; [exists 7; vm_compute; reflexivity|]. split; reflexivity.
Defined.

(** A condition that only ever evaluates to a truthy value. *)
Lemma loop_no_end (be : BoolExp) (c : Cmd) :
  (forall n l h en st vs s1,
     drive n (mkState l h en st vs [VTerm be]) = Some (Ok s1) ->
     exists v rest, val s1 = VNum v :: rest /\ num_truth v = true) ->
  forall n l h en st vs s',
    drive n (mkState l h en st vs [VTerm (Loop be c)]) <> Some (Ok s').
Proof.
  intros Hbe n. induction n as [n IH] using lt_wf_ind.
  intros l h en st vs s' H.
  destruct n as [|n]; [discriminate|]. step H.
  apply drive_cons in H as [(s1 & H1 & H)|(e & He & _)]; [|discriminate He].
  pose proof (drive_Ok_empty _ _ _ H1) as C1.
  destruct (Hbe _ _ _ _ _ _ _ H1) as (v & rest & Hv & Ht).
  pose proof H1 as P1. apply drive_post in P1 as [_ [_ [v' Hv']]].
  destruct s1 as [l1 h1 en1 st1 vs1 c1]. simpl in C1, Hv, Hv'. subst c1.
  rewrite Hv' in Hv. injection Hv as -> _. subst vs1.
  unfold set_cnt in H. simpl in H.
  destruct n as [|n]; [discriminate|]. step H.
  unfold py_truth in H. cbv beta iota in H. rewrite Ht in H.
  apply drive_cons in H as [(s2 & H2 & H)|(e & He & _)]; [|discriminate He].
  pose proof (drive_Ok_empty _ _ _ H2) as C2.
  destruct s2 as [l2 h2 en2 st2 vs2 c2]. simpl in C2. subst c2.
  unfold set_cnt in H. simpl in H.
  eapply (IH n); [lia | exact H].
Qed.

(** X13.  A loop whose condition only ever evaluates to a truthy value
    never ends normally, whatever its body and the machine: no fuel makes
    the driver stop on a state (it goes on for ever, or the body raises).
    [Eq(Num(a), Num(a))] is such a condition for every float [a] that is
    not a NaN. *)
Theorem loop_without_exit (be : BoolExp) (c : Cmd) (a : float) :
  ((forall n l h en st vs s1,
      drive n (mkState l h en st vs [VTerm be]) = Some (Ok s1) ->
      exists v rest, val s1 = VNum v :: rest /\ num_truth v = true) ->
   forall n l h en st vs s',
     drive n (mkState l h en st vs [VTerm (Loop be c)]) <> Some (Ok s')) /\
  (PrimFloat.eqb a a = true ->
   forall n l h en st vs s',
     drive n (mkState l h en st vs [VTerm (Loop (Eq (Num a) (Num a)) c)])
     <> Some (Ok s')).
Proof.
  split; [apply loop_no_end|].
  intros Ha. apply loop_no_end.
  intros n l h en st vs s1 H.
  assert (drive 4 (mkState l h en st vs [VTerm (BExp (Eq (Num a) (Num a)))])
          = Some (Ok (mkState l h en st (VNum (NBool true) :: vs) []))) as H4.
  { do 3 (rewrite drive_step by reflexivity; eval_goal).
    rewrite drive_step by reflexivity. eval_goal.
    unfold py_eq, num_eq. rewrite Ha. reflexivity. }
  pose proof (drive_functional _ _ _ _ _ H H4) as E. injection E as ->.
  exists (NBool true), vs. split; reflexivity.
Qed.

Lemma loop_without_exit_witness :
  PrimFloat.eqb 1%float 1%float = true /\
  drive 500 (seed [("x", NFloat 0%float)] []
               (Loop (Eq (Num 1%float) (Num 1%float))
                     (Assign "x" (Num 2%float))))
  <> Some (Ok (seed [] [] (Num 0%float))).
Proof.
  assert (PrimFloat.eqb 1%float 1%float = true) as H by reflexivity.
  split; [exact H|].
  exact (proj2 (loop_without_exit (Eq (Num 1%float) (Num 1%float))
                  (Assign "x" (Num 2%float)) 1%float) H 500 0 [[]]
           [("x", NFloat 0%float)] [] [] _).
Defined.

(** ** Declarations *)

(** X14.  Declarations, whatever their parts.  When [e], evaluated above
    the saved [Id(x)], ends with the number [v] on top, [Bind(Id(x), e)]
    ends on the same state with the dict [{x: v}] in place of the two
    entries: the value of [e] is taken as location, whether or not [e] is
    a [Ref].  When [d1] evaluates to the end, then [d2] in the state [d1]
    left, and the two dicts on top of the value stack are [m2] and [m1],
    [DSeq(d1, d2)] ends on that last state with the one dict
    [m1.update(m2)] in their place. *)
Theorem declaration_rules (x : string) (e : Exp) (d1 d2 : Dec) (l : nat)
    (h : list (list num)) (en : Env) (st : Sto) (vs : ValueStack) :
  (forall s1 v,
     finishes (mkState l h en st (VTerm (Id x) :: vs) [VTerm e]) (Ok s1) ->
     val s1 = VNum v :: VTerm (Id x) :: vs ->
     finishes (mkState l h en st vs [VTerm (Bind x e)])
              (Ok (set_val (VDict [(x, v)] :: vs) s1))) /\
  (forall s1 s2 m1 m2,
     finishes (mkState l h en st vs [VTerm d1]) (Ok s1) ->
     finishes (set_cnt [VTerm d2] s1) (Ok s2) ->
     val s2 = VDict m2 :: VDict m1 :: vs ->
     finishes (mkState l h en st vs [VTerm (DSeq d1 d2)])
              (Ok (set_val (VDict (env_update m1 m2) :: vs) s2))).
Proof.
  split.
  - intros s1 v H1 Hv.
    pose proof (finishes_Ok_empty _ _ H1) as C1.
    destruct s1 as [l1 h1 en1 st1 vs1 c1]. simpl in C1, Hv. subst c1 vs1.
    eapply finishes_step; [reflexivity | discriminate |].
    eapply finishes_cons; [exact H1|]. unfold set_cnt. simpl.
    apply finishes_last; [discriminate | reflexivity | reflexivity].
  - intros s1 s2 m1 m2 H1 H2 Hv.
    pose proof (finishes_Ok_empty _ _ H1) as C1.
    pose proof (finishes_Ok_empty _ _ H2) as C2.
    destruct s1 as [l1 h1 en1 st1 vs1 c1]. simpl in C1. subst c1.
    destruct s2 as [l2 h2 en2 st2 vs2 c2]. simpl in C2, Hv. subst c2 vs2.
    unfold set_cnt in H2. simpl in H2.
    eapply finishes_step; [reflexivity | discriminate |].
    eapply finishes_cons; [exact H1|]. unfold set_cnt. simpl.
    eapply finishes_cons; [exact H2|]. unfold set_cnt. simpl.
    apply finishes_last; [discriminate | reflexivity | reflexivity].
Qed.

Lemma declaration_rules_witness :
  finishes (mkState 0 [[]] [] [] []
              [VTerm (DSeq (Bind "x" (Num 1%float)) (Bind "x" (Num 2%float)))])
           (Ok (mkState 0 [[]] [] [] [VDict [("x", NFloat 2%float)]] [])).
Proof.
  assert (finishes (mkState 0 [[]] [] [] [] [VTerm (Bind "x" (Num 1%float))])
            (Ok (mkState 0 [[]] [] [] [VDict [("x", NFloat 1%float)]] [])))
    as H1 by (exists 3; reflexivity).
  assert (finishes
            (set_cnt [VTerm (Bind "x" (Num 2%float))]
               (mkState 0 [[]] [] [] [VDict [("x", NFloat 1%float)]] []))
            (Ok (mkState 0 [[]] [] []
                   [VDict [("x", NFloat 2%float)];
                    VDict [("x", NFloat 1%float)]] [])))
    as H2 by (exists 3; reflexivity).
  exact (proj2 (declaration_rules "x" (Num 1%float) _ _ 0 [[]] [] [] [])
           _ _ _ _ H1 H2 eq_refl).
Defined.

(** ** Dicts with string keys *)

Lemma env_get_set (d : Env) (x y : string) (a : num) :
  env_get (env_set d x a) y
  = if String.eqb x y then Some a else env_get d y.
Proof.
  induction d as [|[k w] d IH]; simpl.
  - reflexivity.
  - destruct (String.eqb k x) eqn:E; simpl.
    + apply String.eqb_eq in E. subst k.
      destruct (String.eqb x y); reflexivity.
    + rewrite IH. destruct (String.eqb k y) eqn:F; [|reflexivity].
      apply String.eqb_eq in F. subst k. now rewrite String.eqb_sym, E.
Qed.

Lemma env_set_keys (d : Env) (x : string) (a : num) :
  NoDup (map fst d) -> NoDup (map fst (env_set d x a)) /\
  forall y, In y (map fst (env_set d x a)) -> y = x \/ In y (map fst d).
Proof.
  induction d as [|[k w] d IH]; simpl; intros Hd.
  - split; [repeat constructor; intros [] %elem_of_nil | intuition auto].
  - apply NoDup_cons in Hd as [Hk Hd].
    destruct (String.eqb k x) eqn:E; simpl.
    + split; [now apply NoDup_cons | intuition auto].
    + destruct (IH Hd) as [Hn Hin]. split.
      * apply NoDup_cons. split; [|exact Hn].
        intros Hk'%list_elem_of_In. apply Hin in Hk' as [->|Hk'].
        -- now rewrite String.eqb_refl in E.
        -- apply Hk. now apply list_elem_of_In.
      * intros y [->|Hy]; [auto|]. apply Hin in Hy. intuition auto.
Qed.

Lemma env_update_get (d2 : Env) : forall (d1 : Env) (y : string),
  NoDup (map fst d2) ->
  env_get (env_update d1 d2) y
  = match env_get d2 y with
    | Some a => Some a
    | None => env_get d1 y
    end.
Proof.
  unfold env_update.
  induction d2 as [|[k w] d2 IH]; intros d1 y Hd; simpl; [reflexivity|].
  apply NoDup_cons in Hd as [Hk Hd]. rewrite IH by exact Hd.
  rewrite env_get_set. simpl in *.
  destruct (String.eqb k y) eqn:E; [|reflexivity].
  apply String.eqb_eq in E. subst k.
  destruct (env_get d2 y) eqn:G; [|reflexivity].
  exfalso. apply Hk. apply list_elem_of_In.
  clear -G. induction d2 as [|[k' w'] d2 IH]; [discriminate|].
  simpl in *. destruct (String.eqb k' y) eqn:F.
  - left. now apply String.eqb_eq.
  - right. auto.
Qed.

Lemma env_update_keys (d2 : Env) : forall d1 : Env,
  NoDup (map fst d1) -> NoDup (map fst (env_update d1 d2)).
Proof.
  unfold env_update.
  induction d2 as [|[k w] d2 IH]; intros d1 Hd; simpl; [exact Hd|].
  apply IH. now apply env_set_keys.
Qed.

(** ** Blocks *)

(** The dict a declaration evaluates to binds its names, each once. *)
Lemma drive_dec_dict (d : Dec) : forall n l h en st vs s',
  drive n (mkState l h en st vs [VTerm d]) = Some (Ok s') ->
  exists m, val s' = VDict m :: vs /\ NoDup (map fst m) /\
            forall y, In y (map fst m) <-> In y (dec_names d).
Proof.
  induction d as [x e|d1 IH1 d2 IH2]; intros n l h en st vs s' H;
    (destruct n as [|n]; [discriminate|]); step H.
  - subrun H Hs. apply drive_post in Hs as [_ [_ [v Hv]]]. simpl in Hv.
    subst. marker H. finish H. exists [(x, v)]. simpl.
    split; [reflexivity|]. split; [|tauto].
    apply NoDup_cons. split; [apply not_elem_of_nil | apply NoDup_nil_2].
  - subrun H Hs1. apply IH1 in Hs1 as (m1 & Hv1 & N1 & K1). simpl in Hv1.
    subst. subrun H Hs2. apply IH2 in Hs2 as (m2 & Hv2 & N2 & K2).
    simpl in Hv2. subst. marker H. finish H.
    exists (env_update m1 m2). simpl. split; [reflexivity|].
    split; [now apply env_update_keys|].
    intros y. rewrite in_app_iff, <- K1, <- K2.
    assert (forall (m : Env) z, In z (map fst m) <-> env_get m z <> None)
      as Hkeys.
    { clear. intros m z. induction m as [|[k w] m IH]; simpl; [tauto|].
      destruct (String.eqb k z) eqn:E.
      - apply String.eqb_eq in E. split; [discriminate | auto].
      - rewrite IH. apply String.eqb_neq in E. tauto. }
    rewrite !Hkeys, env_update_get by exact N2.
    destruct (env_get m2 y); [split; [right|]; discriminate | tauto].
Qed.

(** The run of a block, end to end. *)
Lemma Blk_run (d : Dec) (c : Cmd) (n : nat) (l : nat) (h : list (list num))
    (en : Env) (st : Sto) (vs : ValueStack) (s' : state) :
  drive n (mkState l h en st vs [VTerm (Blk d c)]) = Some (Ok s') ->
  exists snapshot rest m hd std lb hb stb,
    h !! l = Some snapshot /\ l < length h /\
    drive n (mkState l (h ++ [snapshot]) en st
               (VTerm c :: VList (length h) :: vs) [VTerm d])
    = Some (Ok (mkState l hd en std
                  (VDict m :: VTerm c :: VList (length h) :: vs) [])) /\
    drive n (mkState l hd (env_update en m) std
               (VEnv en :: VList l :: VList (length h) :: vs) [VTerm c])
    = Some (Ok (mkState lb hb (env_update en m) stb
                  (VEnv en :: VList l :: VList (length h) :: vs) [])) /\
    hb !! l = Some (snapshot ++ rest) /\
    hb !! length h = Some snapshot /\
    s' = mkState (length h) hb en (sto_remove (snapshot ++ rest) stb) vs [].
Proof.
  intros H. destruct n as [|n]; [discriminate|].
  step H. stuck H. rename l0 into snapshot.
  assert (l < length h) as Hlt by (eapply lookup_lt_Some; eassumption).
  subrun H Hd. pose proof Hd as Pd. apply drive_post in Pd.
  destruct Pd as [[Een (_ & _ & Hoth1 & Hcur1)] [El [m Ev]]].
  simpl in Een, Hoth1, Hcur1, El, Ev. subst en0 l0 vs0.
  destruct (Hcur1 snapshot) as [added Hadd].
  { rewrite lookup_app_l; assumption. }
  assert (h0 !! length h = Some snapshot) as Hsnap1.
  { apply Hoth1; [|lia]. rewrite lookup_app_r by lia.
    now rewrite Nat.sub_diag. }
  marker H. subrun H Hc. pose proof Hc as Pc. apply drive_post in Pc.
  destruct Pc as [[Een (_ & _ & Hoth2 & Hcur2)] Hval].
  simpl in Een, Hoth2, Hcur2, Hval. subst en0 vs0.
  destruct (Hcur2 _ Hadd) as [grown Hgrown].
  rewrite <- app_assoc in Hgrown.
  assert (h1 !! length h = Some snapshot) as Hsnap2.
  { apply Hoth2; [exact Hsnap1 | lia]. }
  destruct n as [|n]; [discriminate|]. step H.
  rewrite Hgrown in H. cbv beta iota in H. stuck H. finish H.
  exists snapshot, (added ++ grown), m, h0, st0, l0, h1, st1.
  repeat match goal with |- _ /\ _ => split end;
    try reflexivity; try assumption.
  - apply (drive_mono (S (S n))); [exact Hd | lia].
  - apply (drive_mono (S n)); [exact Hc | lia].
Qed.

(** X15.  Scope of a block's declarations: when [Blk(d, c)] evaluates to
    the end, its declarations evaluated to a dict [m] that binds exactly
    the names [d] declares, and the body [c] was evaluated to the end in
    the environment [en.update(m)], in which a name declared by the block
    has the location [m] gives it and every other name the location the
    environment [en] outside gives it (or none). *)
Theorem block_environment (d : Dec) (c : Cmd) (n : nat) (l : nat)
    (h : list (list num)) (en : Env) (st : Sto) (vs : ValueStack)
    (s' : state) :
  drive n (mkState l h en st vs [VTerm (Blk d c)]) = Some (Ok s') ->
  exists m sd hd std sb,
    finishes (mkState l (h ++ [sd]) en st
                (VTerm c :: VList (length h) :: vs) [VTerm d])
             (Ok (mkState l hd en std
                    (VDict m :: VTerm c :: VList (length h) :: vs) [])) /\
    finishes (mkState l hd (env_update en m) std
                (VEnv en :: VList l :: VList (length h) :: vs) [VTerm c])
             (Ok sb) /\
    env sb = env_update en m /\
    (forall y, In y (dec_names d) <-> env_get m y <> None) /\
    (forall y, In y (dec_names d) ->
               env_get (env_update en m) y = env_get m y) /\
    (forall y, ~ In y (dec_names d) ->
               env_get (env_update en m) y = env_get en y).
Proof.
  intros H.
  apply Blk_run in H
    as (snapshot & rest & m & hd & std & lb & hb & stb
        & _ & _ & Hd & Hc & _ & _ & _).
  destruct (drive_dec_dict _ _ _ _ _ _ _ _ Hd) as (m' & Hm & Nm & Km).
  simpl in Hm. injection Hm as <-.
  assert (forall z, In z (map fst m) <-> env_get m z <> None) as Hkeys.
  { clear. intros z. induction m as [|[k w] m IH]; simpl; [tauto|].
    destruct (String.eqb k z) eqn:E.
    - apply String.eqb_eq in E. split; [discriminate | auto].
    - rewrite IH. apply String.eqb_neq in E. tauto. }
  exists m, snapshot, hd, std, (mkState lb hb (env_update en m) stb
                       (VEnv en :: VList l :: VList (length h) :: vs) []).
  split; [eexists; exact Hd|]. split; [eexists; exact Hc|].
  split; [reflexivity|]. split; [|split].
  - intros y. now rewrite <- Km, Hkeys.
  - intros y Hy. rewrite env_update_get by exact Nm.
    apply Km, Hkeys in Hy. now destruct (env_get m y).
  - intros y Hy. rewrite env_update_get by exact Nm.
    destruct (env_get m y) eqn:G; [|reflexivity].
    exfalso. apply Hy, Km, Hkeys. congruence.
Qed.

Lemma block_environment_witness :
  exists s', drive 65 (mkState 0 [[]] [] [] [] [VTerm (Blk dec fac)])
             = Some (Ok s') /\
  exists m, (In "x" (dec_names dec) <-> env_get m "x" <> None) /\
            env_get (env_update [] m) "x" = env_get m "x".
Proof.
  assert (exists s', drive 65 (mkState 0 [[]] [] [] [] [VTerm (Blk dec fac)])
                     = Some (Ok s')) as [s' H]
    by (eexists; vm_compute; reflexivity).
  exists s'. split; [exact H|].
  destruct (block_environment dec fac 65 0 [[]] [] [] [] s' H)
    as (m & sd & hd & std & sb & _ & _ & _ & Hk & Hin & _).
  exists m. split; [apply Hk|]. apply Hin. left. reflexivity.
Defined.

(** ** References and the exit of a block *)

(** X16.  References, whatever their expression: when [e] ends with the
    number [v] on top and [Ref(e)] ends without an exception, [Ref(e)]
    ends on the state [e] left with, in place of [v], the location [a]
    that [__newLoc] computes from the store [e] left; [a] is appended to
    the ledger, and the store holds [v] at [a]. *)
Theorem Ref_rule (e : Exp) (l : nat) (h : list (list num)) (en : Env)
    (st : Sto) (vs : ValueStack) (s1 s' : state) (v : num) :
  finishes (mkState l h en st vs [VTerm e]) (Ok s1) ->
  val s1 = VNum v :: vs ->
  finishes (mkState l h en st vs [VTerm (Ref e)]) (Ok s') ->
  exists a ls,
    newLoc s1 = Ok (a, s1) /\
    ledger s1 = Some ls /\
    s' = mkState (locs s1) (<[locs s1 := ls ++ [a]]> (heap s1)) (env s1)
           (sto_set (sto s1) a v) (VNum a :: vs) [] /\
    ledger s' = Some (ls ++ [a]) /\
    sto_get (sto s') a = Some v.
Proof.
  intros H1 Hv [n H].
  pose proof (finishes_Ok_empty _ _ H1) as C1.
  destruct s1 as [l1 h1 en1 st1 vs1 c1]. simpl in C1, Hv. subst c1 vs1.
  destruct n as [|n]; [discriminate|]. step H.
  apply drive_cons in H as [(s2 & H2 & H)|(x & Hx & _)]; [|discriminate Hx].
  assert (finishes (mkState l h en st vs [VTerm e]) (Ok s2)) as F2
    by (eexists; exact H2).
  pose proof (finishes_functional _ _ _ H1 F2) as E. injection E as <-.
  unfold set_cnt in H. simpl in H.
  destruct n as [|n]; [discriminate|].
  rewrite drive_step in H by reflexivity.
  destruct (eval _) as [s3|x] eqn:Ev in H; [|discriminate].
  pose proof Ev as Ev'. eval_in Ev'.
  unfold ledger, newLoc. simpl.
  destruct (map fst st1) as [|k ks] eqn:Ek.
  - repeat stuck Ev'. injection Ev' as <-. finish H.
    exists (NFloat 0%float), l0. simpl.
    assert (l1 < length h1) by (eapply lookup_lt_Some; eassumption).
    rewrite list_lookup_insert_eq by assumption.
    repeat split; try assumption.
    apply sto_get_set_same, num_eq_refl. assumption.
  - repeat stuck Ev'. injection Ev' as <-. finish H.
    exists a, l0. simpl.
    assert (l1 < length h1) by (eapply lookup_lt_Some; eassumption).
    rewrite list_lookup_insert_eq by assumption.
    repeat split; try assumption.
    apply sto_get_set_same, num_eq_refl. assumption.
Qed.

Lemma Ref_rule_witness :
  let st := [(NFloat 0%float, NFloat 9%float)] in
  let e := Sum (Num 1%float) (Num 2%float) in
  finishes (mkState 0 [[NFloat 0%float]] [] st [] [VTerm (Ref e)])
           (Ok (mkState 0 [[NFloat 0%float; NFloat 1%float]] []
                  (st ++ [(NFloat 1%float, NFloat 3%float)])
                  [VNum (NFloat 1%float)] [])) /\
  exists a, sto_get (st ++ [(NFloat 1%float, NFloat 3%float)]) a
            = Some (NFloat 3%float).
Proof.
  intros st e.
  assert (finishes (mkState 0 [[NFloat 0%float]] [] st [] [VTerm (Ref e)])
            (Ok (mkState 0 [[NFloat 0%float; NFloat 1%float]] []
                   (st ++ [(NFloat 1%float, NFloat 3%float)])
                   [VNum (NFloat 1%float)] []))) as H
    by (exists 7; reflexivity).
  assert (finishes (mkState 0 [[NFloat 0%float]] [] st [] [VTerm e])
            (Ok (mkState 0 [[NFloat 0%float]] [] st
                   [VNum (NFloat 3%float)] []))) as H1
    by (exists 4; reflexivity).
  split; [exact H|].
  destruct (Ref_rule e 0 [[NFloat 0%float]] [] st [] _ _ _ H1 eq_refl H)
    as (a & ls & _ & _ & _ & _ & Hg).
  exists a. exact Hg.
Defined.

(** X17.  What a block's exit does to the scopes around it.  When
    [Blk(d, c)] evaluates to the end: every location that was in the
    ledger when the block was entered is gone from the store too, so a
    name the outer environment binds to such a location (not a NaN) can
    no longer be read: a step on [Id(x)] raises [KeyError]; and the
    ledger is now the copy made on entry, a list object created by the
    block, so the list the enclosing blocks saved is no longer the one
    later references are appended to. *)
Theorem block_exit_and_outer_scope (d : Dec) (c : Cmd) (n : nat) (l : nat)
    (h : list (list num)) (en : Env) (st : Sto) (vs : ValueStack)
    (s' : state) :
  drive n (mkState l h en st vs [VTerm (Blk d c)]) = Some (Ok s') ->
  exists snapshot,
    h !! l = Some snapshot /\
    (forall a, In a snapshot -> sto_get (sto s') a = None) /\
    (forall x a C, env_get en x = Some a -> In a snapshot ->
                   num_is_nan a = false ->
                   eval (set_cnt (VTerm (Id x) :: C) s') = Err KeyError) /\
    locs s' = length h /\ l < length h /\
    ledger s' = Some snapshot.
Proof.
  intros H.
  apply Blk_run in H
    as (snapshot & rest & m & hd & std & lb & hb & stb
        & Hs & Hl & _ & _ & _ & Hsnap & ->).
  exists snapshot. simpl.
  assert (forall a, In a snapshot ->
            sto_get (sto_remove (snapshot ++ rest) stb) a = None) as Hgone.
  { intros a Ha. apply sto_get_remove. rewrite in_app_iff. now left. }
  repeat split; try assumption.
  intros x a C Hx Ha Hn. unfold set_cnt. simpl. eval_goal.
  now rewrite Hx, Hn, (Hgone a Ha).
Qed.

Lemma block_exit_and_outer_scope_witness :
  let inner := Blk (Bind "y" (Ref (Num 2%float))) (Assign "y" (Num 3%float)) in
  let en := [("x", NFloat 0%float)] in
  let st := [(NFloat 0%float, NFloat 1%float)] in
  exists s', drive 20 (mkState 0 [[NFloat 0%float]] en st [] [VTerm inner])
             = Some (Ok s') /\
  eval (set_cnt [VTerm (Id "x")] s') = Err KeyError.
Proof.
  intros inner en st.
  assert (exists s',
            drive 20 (mkState 0 [[NFloat 0%float]] en st [] [VTerm inner])
            = Some (Ok s')) as [s' H]
    by (eexists; vm_compute; reflexivity).
  exists s'. split; [exact H|].
  destruct (block_exit_and_outer_scope _ _ 20 0 [[NFloat 0%float]]
              en st [] s' H)
    as (snapshot & Hs & _ & Hk & _).
  simpl in Hs. injection Hs as <-.
  apply (Hk "x" (NFloat 0%float) []); [reflexivity | now left | reflexivity].
Defined.

(** A consequence on a whole program: the location the body of [leaky]
    allocates after its nested block is still in the store when the
    machine has come to its end. *)
Example leaky_store :
  exists sf, drive 100 (seed [] [] leaky) = Some (Ok sf) /\
             env sf = [] /\ ledger sf = Some [] /\
             sto sf = [(NFloat 2%float, NFloat 5%float)].
Proof.
  eexists. split; [vm_compute; reflexivity|].
  split; [reflexivity|]. split; reflexivity.
Qed.

(** ** Expressions without references *)

Lemma ref_free_entry_step l h en st vs c C s' :
  ref_free_entry c = true ->
  eval (mkState l h en st vs (c :: C)) = Ok s' ->
  env s' = en /\ sto s' = st /\ locs s' = l /\ heap s' = h /\
  exists K, cnt s' = K ++ C /\ forallb ref_free_entry K = true.
Proof.
  intros Hc H.
  destruct c as [?|k|[e| |]| | |]; try discriminate Hc.
  - (* a marker *)
    simpl in Hc. rewrite !orb_true_iff in Hc.
    destruct Hc as [[[[E|E]|E]|E]|E]; apply String.eqb_eq in E; subst k;
      eval_in H; repeat stuck H; injection H as <-;
      repeat split; exists []; split; reflexivity.
  - (* an expression *)
    destruct e as [f|e1 e2|e1 e2|e1 e2|[e1 e2|e1]|x|e1|e1];
      try discriminate Hc;
      simpl in Hc; try apply andb_true_iff in Hc as [H1 H2];
      eval_in H; repeat stuck H; try discriminate H;
      injection H as <-; repeat split.
    + exists []. split; reflexivity.
    + exists [VTerm e2; VTerm e1; VStr ExpKW.SUM]. simpl. rewrite H1, H2.
      split; reflexivity.
    + exists [VTerm e2; VTerm e1; VStr ExpKW.SUB]. simpl. rewrite H1, H2.
      split; reflexivity.
    + exists [VTerm e2; VTerm e1; VStr ExpKW.MUL]. simpl. rewrite H1, H2.
      split; reflexivity.
    + exists [VTerm e2; VTerm e1; VStr ExpKW.EQ]. simpl. rewrite H1, H2.
      split; reflexivity.
    + exists [VTerm e1; VStr ExpKW.NOT]. simpl. rewrite Hc.
      split; reflexivity.
    + exists []. split; reflexivity.
Qed.

Lemma drive_ref_free n : forall s s',
  forallb ref_free_entry (cnt s) = true ->
  drive n s = Some (Ok s') ->
  env s' = env s /\ sto s' = sto s /\ locs s' = locs s /\ heap s' = heap s.
Proof.
  induction n as [|n IH]; intros s s' Hp H.
  - simpl in H. destruct (emptyCnt s); [|discriminate].
    injection H as <-. repeat split.
  - destruct (emptyCnt s) eqn:E.
    + rewrite drive_done in H by exact E. injection H as <-. repeat split.
    + rewrite drive_step in H by exact E.
      destruct s as [l h en st vs [|c C]]; [discriminate E|].
      simpl in Hp. apply andb_true_iff in Hp as [Hc HC].
      destruct (eval _) as [s1|e] eqn:Ev; [|discriminate].
      apply ref_free_entry_step in Ev as (E1 & E2 & E3 & E4 & K & EK & HK);
        [|exact Hc].
      apply IH in H as (F1 & F2 & F3 & F4).
      * simpl. repeat split; congruence.
      * rewrite EK, forallb_app, HK, HC. reflexivity.
Qed.

(** X18.  Only references have side effects among expressions: when the
    evaluation of an expression in which no [Ref] occurs (identifiers
    allowed) ends without an exception, the store, the environment and the
    ledger (the list object and what it holds) are the ones before, and
    the value stack has one number more, whatever the machine. *)
Theorem expression_without_Ref (e : Exp) (n : nat) (l : nat)
    (h : list (list num)) (en : Env) (st : Sto) (vs : ValueStack)
    (s' : state) :
  ref_free e = true ->
  drive n (mkState l h en st vs [VTerm e]) = Some (Ok s') ->
  exists v, s' = mkState l h en st (VNum v :: vs) [].
Proof.
  intros Hp H.
  assert (forallb ref_free_entry (cnt (mkState l h en st vs [VTerm e]))
          = true) as Hc by (simpl; now rewrite Hp).
  pose proof (drive_ref_free n _ _ Hc H) as (E1 & E2 & E3 & E4).
  pose proof (drive_Ok_empty _ _ _ H) as E5.
  apply drive_post in H as [_ [_ [v Hv]]].
  destruct s' as [l' h' en' st' vs' c']. simpl in *. subst.
  exists v. reflexivity.
Qed.

Lemma expression_without_Ref_witness :
  let en := [("x", NFloat 0%float)] in
  let st := [(NFloat 0%float, NFloat 5%float)] in
  let e := Mul (Id "x") (Sub (Id "x") (Num 1%float)) in
  ref_free e = true /\
  drive 10 (mkState 0 [[NFloat 0%float]] en st [] [VTerm e])
  = Some (Ok (mkState 0 [[NFloat 0%float]] en st [VNum (NFloat 20%float)] []))
  /\ exists v, mkState 0 [[NFloat 0%float]] en st [VNum (NFloat 20%float)] []
               = mkState 0 [[NFloat 0%float]] en st [VNum v] [].
Proof.
  intros en st e.
  assert (ref_free e = true) as H1 by reflexivity.
  assert (drive 10 (mkState 0 [[NFloat 0%float]] en st [] [VTerm e])
          = Some (Ok (mkState 0 [[NFloat 0%float]] en st
                        [VNum (NFloat 20%float)] []))) as H2
    by (vm_compute; reflexivity).
  split; [exact H1|]. split; [exact H2|].
  exact (expression_without_Ref e 10 0 [[NFloat 0%float]] en st [] _ H1 H2).
Defined.

(** ** Sequences of commands *)

Lemma finishes_step_iff s s1 r :
  eval s = Ok s1 -> cnt s <> [] -> (finishes s r <-> finishes s1 r).
Proof.
  intros He Hc. split; [|now apply finishes_step].
  intros [n H]. destruct n as [|n].
  - simpl in H. destruct (emptyCnt s) eqn:E; [|discriminate].
    apply emptyCnt_nil in E. contradiction.
  - rewrite drive_step in H.
    + rewrite He in H. eexists. exact H.
    + unfold emptyCnt. destruct (cnt s); [now elim Hc | reflexivity].
Qed.

(** X19.  Sequencing is associative: for all commands and every machine,
    driving [CSeq(CSeq(c1, c2), c3)] and driving [CSeq(c1, CSeq(c2, c3))]
    end on the same outcome, a state or an exception, or neither ends. *)
Theorem CSeq_associative (c1 c2 c3 : Cmd) (l : nat) (h : list (list num))
    (en : Env) (st : Sto) (vs : ValueStack) (r : result state) :
  finishes (mkState l h en st vs [VTerm (CSeq (CSeq c1 c2) c3)]) r <->
  finishes (mkState l h en st vs [VTerm (CSeq c1 (CSeq c2 c3))]) r.
Proof.
  rewrite (finishes_step_iff _ (mkState l h en st vs
                                  [VTerm (CSeq c1 c2); VTerm c3]))
    by (reflexivity || discriminate).
  rewrite (finishes_step_iff _ (mkState l h en st vs
                                  [VTerm c1; VTerm c2; VTerm c3]))
    by (reflexivity || discriminate).
  rewrite (finishes_step_iff (mkState l h en st vs
                                [VTerm (CSeq c1 (CSeq c2 c3))])
             (mkState l h en st vs [VTerm c1; VTerm (CSeq c2 c3)]))
    by (reflexivity || discriminate).
  split; intros [n H];
    apply drive_cons in H as [(s1 & H1 & H2)|(e & -> & H1)].
  - eapply finishes_cons; [eexists; exact H1|].
    pose proof (drive_Ok_empty _ _ _ H1) as C1.
    destruct s1 as [l1 h1 en1 st1 vs1 c]. simpl in C1. subst c.
    apply (finishes_step_iff _ (mkState l1 h1 en1 st1 vs1
                                  [VTerm c2; VTerm c3]));
      [reflexivity | discriminate | eexists; exact H2].
  - exists n. now apply drive_cons_Err.
  - eapply finishes_cons; [eexists; exact H1|].
    pose proof (drive_Ok_empty _ _ _ H1) as C1.
    destruct s1 as [l1 h1 en1 st1 vs1 c]. simpl in C1. subst c.
    apply (finishes_step_iff (mkState l1 h1 en1 st1 vs1
                                [VTerm (CSeq c2 c3)])
             (mkState l1 h1 en1 st1 vs1 [VTerm c2; VTerm c3]));
      [reflexivity | discriminate | eexists; exact H2].
  - exists n. now apply drive_cons_Err.
Qed.

Lemma CSeq_associative_witness :
  let en := [("x", NFloat 0%float)] in
  let a k := Assign "x" (Sum (Id "x") (Num k)) in
  finishes (mkState 0 [[]] en [(NFloat 0%float, NFloat 0%float)] []
              [VTerm (CSeq (a 1%float) (CSeq (a 2%float) (a 3%float)))])
           (Ok (mkState 0 [[]] en [(NFloat 0%float, NFloat 6%float)] [] [])).
Proof.
  intros en a.
  apply (proj1 (CSeq_associative (a 1%float) (a 2%float) (a 3%float) 0 [[]]
                  en [(NFloat 0%float, NFloat 0%float)] [] _)).
  exists 30. vm_compute. reflexivity.
Defined.
